(** * slist: intrusive singly-linked lists (list.h)

    A shallow embedding of the macros of [list.h] over an explicit memory.

    - An element is identified by its (non-null) address; a pointer to an
      element is [option addr], with [None] standing for [NULL].
    - The memory holds, for every list handle, its [_list_fst] field and,
      for every element, its [_list_nxt] link.  The macros read and rewrite
      these two tables and nothing else.
    - Dereferencing [NULL] is undefined behaviour in C; the model reports it
      as [Fault].  Loops whose termination depends on the shape of the
      memory are given fuel, one unit per execution of the loop body, and
      report [Timeout] when the body is entered without fuel.
    - The optional [clean] callback is an external function; the model
      records every invocation, together with the link the callback finds
      in the element it receives.
    - [intmax_t] counters are integers in [Z].  In [LIST_SORT] the run
      length [gl] ends at no more than twice the length of the chain
      ([sort_passes_spec]).  The conversion [(intmax_t)(n)] that
      [LIST_DROP] and [LIST_TAKE] apply to their argument is [to_intmax]:
      [intmax_t] has 64 bits and a value outside its range wraps around. *)

From Stdlib Require Import ZArith Lia Sorted Permutation.
From stdpp Require Import base tactics option list numbers functions sets sorting.

Open Scope Z_scope.
Set Warnings "-clear-no-such-hyp".

(** ** Outcome of running a macro *)

Inductive result (A : Type) : Type :=
  | Done (a : A)
  | Fault
  | Timeout.
Arguments Done {A} a.
Arguments Fault {A}.
Arguments Timeout {A}.

#[global] Instance result_ret : MRet result := @Done.
#[global] Instance result_bind : MBind result := λ A B f m,
  match m with
  | Done a => f a
  | Fault => Fault
  | Timeout => Timeout
  end.

(** ** Memory *)

Definition addr := positive.
Bind Scope positive_scope with addr.
Definition ptr := option addr.
Definition handle := nat.

(** Sequences of elements.  The macros call their list argument [list], and
    so do the definitions below; this name keeps the type available. *)
Abbreviation elements := (list addr).

(** One invocation of the [clean] callback: the element it was given and the
    value of that element's link at the moment of the call. *)
Record call := Call { call_elem : addr; call_link : ptr }.

Record state := State {
  heads : handle → ptr;   (* list->_list_fst *)
  links : addr → ptr;     (* elem->link._list_nxt *)
  calls : list call       (* invocations of clean, oldest first *)
}.

(** [_LIST_FST(list)] as an rvalue and as an lvalue. *)
Definition _LIST_FST (s : state) (list : handle) : ptr := heads s list.

Definition set_LIST_FST (s : state) (list : handle) (v : ptr) : state :=
  {| heads := <[list := v]> (heads s); links := links s; calls := calls s |}.

(** [_LIST_NXT(elem, link)] as an rvalue and as an lvalue. *)
Definition _LIST_NXT (s : state) (elem : ptr) : result ptr :=
  match elem with
  | Some e => Done (links s e)
  | None => Fault
  end.

Definition set_LIST_NXT (s : state) (elem : ptr) (v : ptr) : result state :=
  match elem with
  | Some e =>
      Done {| heads := heads s; links := <[e := v]> (links s); calls := calls s |}
  | None => Fault
  end.

(** [if (clean != NULL) clean(e);] *)
Definition run_clean (clean : bool) (s : state) (e : addr) : state :=
  if clean
  then {| heads := heads s; links := links s;
          calls := calls s ++ [Call e (links s e)] |}
  else s.

(** Elements handed to [clean] so far, oldest first. *)
Definition cleaned (s : state) : elements := call_elem <$> calls s.

(** ** Navigation *)

Definition LIST_NEW (s : state) (list : handle) : state :=
  set_LIST_FST s list None.

Definition LIST_FIRST (s : state) (list : handle) : ptr := _LIST_FST s list.

Definition LIST_EMPTY (s : state) (list : handle) : bool :=
  bool_decide (_LIST_FST s list = None).

Fixpoint last_loop (fuel : nat) (s : state) (e : addr) : result addr :=
  match links s e with
  | Some e' =>
      match fuel with
      | O => Timeout
      | S k => last_loop k s e'
      end
  | None => Done e
  end.

Definition LIST_LAST (fuel : nat) (s : state) (list : handle) : result ptr :=
  match _LIST_FST s list with
  | None => Done None
  | Some e => e' ← last_loop fuel s e; Done (Some e')
  end.

Fixpoint length_loop (fuel : nat) (s : state) (e : ptr) (out : Z) : result Z :=
  match e with
  | Some a =>
      match fuel with
      | O => Timeout
      | S k => length_loop k s (links s a) (out + 1)
      end
  | None => Done out
  end.

Definition LIST_LENGTH (fuel : nat) (s : state) (list : handle) : result Z :=
  length_loop fuel s (_LIST_FST s list) 0.

Fixpoint find_loop (fuel : nat) (func : addr → bool) (s : state) (e : ptr)
  : result ptr :=
  match e with
  | Some a =>
      if func a then Done (Some a)
      else match fuel with
           | O => Timeout
           | S k => find_loop k func s (links s a)
           end
  | None => Done None
  end.

Definition LIST_FIND (fuel : nat) (func : addr → bool) (s : state)
  (list : handle) : result ptr :=
  find_loop fuel func s (_LIST_FST s list).

(** [while (true)] of [LIST_MAX]: [out] is the running best. *)
Fixpoint max_loop (fuel : nat) (func : addr → addr → Z) (s : state)
  (out e : addr) : result addr :=
  let out' := if func out e <? 1 then e else out in
  match links s e with
  | Some e' =>
      match fuel with
      | O => Timeout
      | S k => max_loop k func s out' e'
      end
  | None => Done out'
  end.

Definition LIST_MAX (fuel : nat) (func : addr → addr → Z) (s : state)
  (list : handle) : result ptr :=
  match _LIST_FST s list with
  | None => Done None
  | Some e => out ← max_loop fuel func s e e; Done (Some out)
  end.

Fixpoint min_loop (fuel : nat) (func : addr → addr → Z) (s : state)
  (out e : addr) : result addr :=
  let out' := if -1 <? func out e then e else out in
  match links s e with
  | Some e' =>
      match fuel with
      | O => Timeout
      | S k => min_loop k func s out' e'
      end
  | None => Done out'
  end.

Definition LIST_MIN (fuel : nat) (func : addr → addr → Z) (s : state)
  (list : handle) : result ptr :=
  match _LIST_FST s list with
  | None => Done None
  | Some e => out ← min_loop fuel func s e e; Done (Some out)
  end.

(** ** Mutation *)

Definition LIST_PUSH (s : state) (list : handle) (elem : ptr) : result state :=
  s' ← set_LIST_NXT s elem (_LIST_FST s list);
  Done (set_LIST_FST s' list elem).

Definition LIST_POP (clean : bool) (s : state) (list : handle) : state :=
  match _LIST_FST s list with
  | Some e => run_clean clean (set_LIST_FST s list (links s e)) e
  | None => s
  end.

Definition LIST_REMOVE (clean : bool) (s : state) (elem : ptr) : result state :=
  n ← _LIST_NXT s elem;
  match n with
  | None => Done s
  | Some e =>
      nn ← _LIST_NXT s n;
      s' ← set_LIST_NXT s elem nn;
      Done (run_clean clean s' e)
  end.

(** The conversion [(intmax_t)(n)] of an integer argument: the identity on
    the 64-bit signed range, wrap-around modulo [2^64] outside of it (so an
    unsigned argument of [2^63] or more turns negative). *)
Definition to_intmax (n : Z) : Z := (n + 2 ^ 63) mod 2 ^ 64 - 2 ^ 63.

(** [for (i = 0; i < (intmax_t)(n); i++) { LIST_POP; if (first == NULL)
    break; }] with [k] the number of iterations still allowed by the
    counter. *)
Fixpoint drop_loop (k : nat) (clean : bool) (s : state) (list : handle) : state :=
  match k with
  | O => s
  | S k' =>
      let s' := LIST_POP clean s list in
      match _LIST_FST s' list with
      | None => s'
      | Some _ => drop_loop k' clean s' list
      end
  end.

Definition LIST_DROP (clean : bool) (s : state) (list : handle) (n : Z) : state :=
  drop_loop (Z.to_nat (to_intmax n)) clean s list.

Fixpoint take_skip (fuel : nat) (s : state) (f : ptr) (i n : Z) : result ptr :=
  match f with
  | Some e =>
      if i <? n then
        match fuel with
        | O => Timeout
        | S k => take_skip k s (links s e) (i + 1) n
        end
      else Done f
  | None => Done f
  end.

Fixpoint take_cut (fuel : nat) (clean : bool) (s : state) (f : ptr)
  : result state :=
  n ← _LIST_NXT s f;
  match n with
  | Some _ =>
      match fuel with
      | O => Timeout
      | S k => s' ← LIST_REMOVE clean s f; take_cut k clean s' f
      end
  | None => Done s
  end.

Definition LIST_TAKE (fuel : nat) (clean : bool) (s : state) (list : handle)
  (n : Z) : result state :=
  f ← take_skip fuel s (_LIST_FST s list) 1 (to_intmax n);
  take_cut fuel clean s f.

Definition LIST_APPEND (fuel : nat) (s : state) (list1 list2 : handle)
  : result state :=
  let g := _LIST_FST s list2 in
  let s1 := set_LIST_FST s list2 None in
  f ← LIST_LAST fuel s1 list1;
  match f with
  | None => Done (set_LIST_FST s1 list1 g)
  | Some _ => set_LIST_NXT s1 f g
  end.

(** ** Algorithms *)

(** Inner [while] of [LIST_UNIQUE]: [f] is the reference element, [g] the
    cursor whose successor is examined. *)
Fixpoint unique_scan (fuel : nat) (clean : bool) (func : addr → addr → Z)
  (s : state) (f : addr) (g : ptr) : result state :=
  n ← _LIST_NXT s g;
  match n with
  | Some e =>
      match fuel with
      | O => Timeout
      | S k =>
          s' ← (if func f e =? 0 then LIST_REMOVE clean s g else Done s);
          g' ← _LIST_NXT s' g;
          unique_scan k clean func s' f g'
      end
  | None => Done s
  end.

Fixpoint unique_loop (fuel0 fuel : nat) (clean : bool)
  (func : addr → addr → Z) (s : state) (f : ptr) : result state :=
  match f with
  | Some a =>
      match fuel with
      | O => Timeout
      | S k =>
          s' ← unique_scan fuel0 clean func s a f;
          unique_loop fuel0 k clean func s' (links s' a)
      end
  | None => Done s
  end.

Definition LIST_UNIQUE (fuel : nat) (clean : bool) (func : addr → addr → Z)
  (s : state) (list : handle) : result state :=
  unique_loop fuel fuel clean func s (_LIST_FST s list).

(** [LIST_SORT], innermost loops first.  The local variables keep their
    names without the [_list_] prefix. *)

(** Lines 341-344: walk [r] at most [gl] elements ahead, counting in [ls]. *)
Fixpoint sort_split (fuel : nat) (s : state) (gl : Z) (r : ptr) (ls : Z)
  : result (ptr * Z) :=
  match r with
  | Some e =>
      if ls <? gl then
        match fuel with
        | O => Timeout
        | S k => sort_split k s gl (links s e) (ls + 1)
        end
      else Done (r, ls)
  | None => Done (r, ls)
  end.

(** The locals of the merge loop. *)
Record merge_vars := MergeVars {
  v_l : ptr; v_r : ptr; v_ls : Z; v_rs : Z; v_t : ptr; v_x : ptr
}.

(** Lines 350-351: the condition of the [else if].  [func] reads both
    elements, so it has no value on a null reference. *)
Definition sort_left_first (func : addr → addr → Z) (v : merge_vars)
  : result bool :=
  if v_rs v =? 0 then Done true
  else match v_r v with
       | None => Done true
       | Some b =>
           match v_l v with
           | Some a => Done (func a b <? 0)
           | None => Fault
           end
       end.

(** Lines 346-359: choose the next element [n] and step past it. *)
Definition sort_pick (func : addr → addr → Z) (s : state) (v : merge_vars)
  : result (ptr * merge_vars) :=
  if v_ls v =? 0 then
    r' ← _LIST_NXT s (v_r v);
    Done (v_r v, MergeVars (v_l v) r' (v_ls v) (v_rs v - 1) (v_t v) (v_x v))
  else
    left ← sort_left_first func v;
    if left : bool then
      l' ← _LIST_NXT s (v_l v);
      Done (v_l v, MergeVars l' (v_r v) (v_ls v - 1) (v_rs v) (v_t v) (v_x v))
    else
      r' ← _LIST_NXT s (v_r v);
      Done (v_r v, MergeVars (v_l v) r' (v_ls v) (v_rs v - 1) (v_t v) (v_x v)).

(** Lines 360-364: hang [n] behind the tail [t], or make it the head [x]. *)
Definition sort_emit (s : state) (v : merge_vars) (n : ptr)
  : result (state * merge_vars) :=
  match v_t v with
  | Some _ =>
      s' ← set_LIST_NXT s (v_t v) n;
      Done (s', MergeVars (v_l v) (v_r v) (v_ls v) (v_rs v) n (v_x v))
  | None =>
      Done (s, MergeVars (v_l v) (v_r v) (v_ls v) (v_rs v) n n)
  end.

(** Lines 346-364: one merge step, the body of the merge loop. *)
Definition sort_step (func : addr → addr → Z) (s : state) (v : merge_vars)
  : result (state * merge_vars) :=
  '(n, v1) ← sort_pick func s v;
  sort_emit s v1 n.

(** Lines 345-365. *)
Fixpoint sort_merge (fuel : nat) (func : addr → addr → Z) (s : state)
  (v : merge_vars) : result (state * merge_vars) :=
  if (0 <? v_ls v) || ((0 <? v_rs v) && bool_decide (v_r v ≠ None)) then
    match fuel with
    | O => Timeout
    | S k =>
        '(s', v') ← sort_step func s v;
        sort_merge k func s' v'
    end
  else Done (s, v).

(** Lines 336-367: one pass over the chain starting at [l]; [nm] counts the
    merges. *)
Fixpoint sort_pass (fuel0 fuel : nat) (func : addr → addr → Z) (s : state)
  (gl : Z) (l t x : ptr) (nm : Z) : result (state * ptr * ptr * Z) :=
  match l with
  | Some _ =>
      match fuel with
      | O => Timeout
      | S k =>
          '(r, ls) ← sort_split fuel0 s gl l 0;
          '(s', v) ← sort_merge fuel0 func s (MergeVars l r ls gl t x);
          sort_pass fuel0 k func s' gl (v_r v) (v_t v) (v_x v) (nm + 1)
      end
  | None => Done (s, t, x, nm)
  end.

(** Lines 331-370: the [do ... while (nm > 1)] over passes.  The result
    carries the final values of [x] and [gl]. *)
Fixpoint sort_passes (fuel0 fuel : nat) (func : addr → addr → Z) (s : state)
  (gl : Z) (x : ptr) : result (state * ptr * Z) :=
  match fuel with
  | O => Timeout
  | S k =>
      '(s1, t, x', nm) ← sort_pass fuel0 fuel0 func s gl x None None 0;
      s2 ← set_LIST_NXT s1 t None;
      if 1 <? nm then sort_passes fuel0 k func s2 (gl * 2) x'
      else Done (s2, x', gl * 2)
  end.

Definition LIST_SORT (fuel : nat) (func : addr → addr → Z) (s : state)
  (list : handle) : result state :=
  let x := _LIST_FST s list in
  match x with
  | None => Done s
  | Some e =>
      match links s e with
      | None => Done s
      | Some _ =>
          '(s', x', _) ← sort_passes fuel fuel func s 1 x;
          Done (set_LIST_FST s' list x')
      end
  end.

(** ** Navigation and queries without a claim of their own *)

Definition LIST_NEXT (s : state) (elem : ptr) : result ptr := _LIST_NXT s elem.

(** [for (i = 0; i < n && e != NULL; i++, e = NXT(e));] *)
Fixpoint nth_loop (fuel : nat) (s : state) (e : ptr) (i n : Z) : result ptr :=
  if i <? n then
    match e with
    | Some a =>
        match fuel with
        | O => Timeout
        | S k => nth_loop k s (links s a) (i + 1) n
        end
    | None => Done e
    end
  else Done e.

Definition LIST_NTH (fuel : nat) (s : state) (list : handle) (n : Z)
  : result ptr :=
  match _LIST_FST s list with
  | None => Done None
  | Some _ => nth_loop fuel s (_LIST_FST s list) 0 n
  end.

Fixpoint all_loop (fuel : nat) (func : addr → bool) (s : state) (e : ptr)
  : result bool :=
  match e with
  | Some a =>
      if negb (func a) then Done false
      else match fuel with
           | O => Timeout
           | S k => all_loop k func s (links s a)
           end
  | None => Done true
  end.

Definition LIST_ALL (fuel : nat) (func : addr → bool) (s : state)
  (list : handle) : result bool :=
  all_loop fuel func s (_LIST_FST s list).

Fixpoint any_loop (fuel : nat) (func : addr → bool) (s : state) (e : ptr)
  : result bool :=
  match e with
  | Some a =>
      if func a then Done true
      else match fuel with
           | O => Timeout
           | S k => any_loop k func s (links s a)
           end
  | None => Done false
  end.

Definition LIST_ANY (fuel : nat) (func : addr → bool) (s : state)
  (list : handle) : result bool :=
  any_loop fuel func s (_LIST_FST s list).

Fixpoint member_loop (fuel : nat) (s : state) (e : ptr) (elem : ptr)
  : result bool :=
  match e with
  | Some a =>
      if bool_decide (e = elem) then Done true
      else match fuel with
           | O => Timeout
           | S k => member_loop k s (links s a) elem
           end
  | None => Done false
  end.

Definition LIST_MEMBER (fuel : nat) (s : state) (list : handle) (elem : ptr)
  : result bool :=
  member_loop fuel s (_LIST_FST s list) elem.

(** [LIST_MAP]: [func] is an external action; it is given the element and
    its index and acts on the data [W] of the caller, not on the links. *)
Fixpoint map_loop {W : Type} (fuel : nat) (func : addr → Z → W → W)
  (s : state) (e : ptr) (i : Z) (w : W) : result W :=
  match e with
  | Some a =>
      match fuel with
      | O => Timeout
      | S k => map_loop k func s (links s a) (i + 1) (func a i w)
      end
  | None => Done w
  end.

Definition LIST_MAP {W : Type} (fuel : nat) (func : addr → Z → W → W)
  (s : state) (list : handle) (w : W) : result W :=
  map_loop fuel func s (_LIST_FST s list) 0 w.

(** [LIST_ZIP]: the two lists may use different link fields; [lk1] and
    [lk2] are the tables of the two fields. *)
Fixpoint zip_loop {W : Type} (fuel : nat) (func : addr → addr → Z → W → W)
  (lk1 lk2 : addr → ptr) (a b : ptr) (i : Z) (w : W) : result W :=
  match a, b with
  | Some ea, Some eb =>
      match fuel with
      | O => Timeout
      | S k => zip_loop k func lk1 lk2 (lk1 ea) (lk2 eb) (i + 1) (func ea eb i w)
      end
  | _, _ => Done w
  end.

Definition LIST_ZIP {W : Type} (fuel : nat) (func : addr → addr → Z → W → W)
  (s1 : state) (list1 : handle) (s2 : state) (list2 : handle) (w : W)
  : result W :=
  zip_loop fuel func (links s1) (links s2)
    (_LIST_FST s1 list1) (_LIST_FST s2 list2) 0 w.

(** ** Mutation without a claim of its own *)

Definition LIST_INSERT (s : state) (elem toadd : ptr) : result state :=
  n ← _LIST_NXT s elem;
  s' ← set_LIST_NXT s toadd n;
  set_LIST_NXT s' elem toadd.

Fixpoint LIST_FREE (fuel : nat) (clean : bool) (s : state) (list : handle)
  : result state :=
  match _LIST_FST s list with
  | Some _ =>
      match fuel with
      | O => Timeout
      | S k => LIST_FREE k clean (LIST_POP clean s list) list
      end
  | None => Done s
  end.

Definition LIST_ATTACH (s : state) (list : handle) (elem : ptr) : state :=
  set_LIST_FST s list elem.

Definition LIST_DETACH (s : state) (list : handle) : state :=
  set_LIST_FST s list None.

(** [LIST_FILTER] walks a pointer [_list_c] to the field that holds the
    current element: the head of the list or the link of an element. *)
Inductive slot :=
  | head_slot (list : handle)
  | link_slot (e : addr).

Definition read_slot (s : state) (c : slot) : ptr :=
  match c with
  | head_slot list => _LIST_FST s list
  | link_slot e => links s e
  end.

Definition write_slot (s : state) (c : slot) (v : ptr) : state :=
  match c with
  | head_slot list => set_LIST_FST s list v
  | link_slot e =>
      {| heads := heads s; links := <[e := v]> (links s); calls := calls s |}
  end.

Fixpoint filter_loop (fuel : nat) (clean : bool) (func : addr → Z → bool)
  (s : state) (c : slot) (i : Z) : result state :=
  match read_slot s c with
  | Some e =>
      match fuel with
      | O => Timeout
      | S k =>
          if func e i then
            let s' := run_clean clean (write_slot s c (links s e)) e in
            filter_loop k clean func s' c (i + 1)
          else filter_loop k clean func s (link_slot e) (i + 1)
      end
  | None => Done s
  end.

Definition LIST_FILTER (fuel : nat) (clean : bool) (func : addr → Z → bool)
  (s : state) (list : handle) : result state :=
  filter_loop fuel clean func s (head_slot list) 0.

Fixpoint reverse_loop (fuel : nat) (s : state) (p c : ptr)
  : result (state * ptr) :=
  match c with
  | Some a =>
      match fuel with
      | O => Timeout
      | S k =>
          let n := links s a in
          s' ← set_LIST_NXT s c p;
          reverse_loop k s' c n
      end
  | None => Done (s, p)
  end.

Definition LIST_REVERSE (fuel : nat) (s : state) (list : handle)
  : result state :=
  '(s', p) ← reverse_loop fuel s None (_LIST_FST s list);
  Done (set_LIST_FST s' list p).

(** ** What the traversals compute on sequences *)

(** The actions of [LIST_MAP] and [LIST_ZIP] on the items [l], the first of
    which has index [i]. *)
Fixpoint visit {A W : Type} (func : A → Z → W → W) (i : Z) (l : list A)
  (w : W) : W :=
  match l with
  | [] => w
  | a :: l' => visit func (i + 1) l' (func a i w)
  end.

(** The elements [LIST_FILTER] keeps and those it removes, [i] being the
    index of the first element of [l]. *)
Fixpoint filter_list (func : addr → Z → bool) (i : Z) (l : elements)
  : elements * elements :=
  match l with
  | [] => ([], [])
  | e :: l' =>
      let '(k, r) := filter_list func (i + 1) l' in
      if func e i then (k, e :: r) else (e :: k, r)
  end.

(** The field behind [c] is not the link of an element of [l]. *)
Definition slot_outside (c : slot) (l : elements) : Prop :=
  match c with
  | head_slot _ => True
  | link_slot a => a ∉ l
  end.

(** ** Building concrete memories *)

Definition empty_state : state :=
  {| heads := λ _, None; links := λ _, None; calls := [] |}.

(** Push the elements of [l] so that the chain of [list] reads [l ++ old]. *)
Fixpoint push_all (s : state) (list : handle) (l : elements) : state :=
  match l with
  | [] => s
  | e :: l' =>
      let s' := push_all s list l' in
      match LIST_PUSH s' list (Some e) with
      | Done s'' => s''
      | _ => s'
      end
  end.

(** Follow the links from [p], at most [fuel] elements. *)
Fixpoint walk (fuel : nat) (lk : addr → ptr) (p : ptr) : elements :=
  match fuel, p with
  | S k, Some e => e :: walk k lk (lk e)
  | _, _ => []
  end.

Definition contents (fuel : nat) (s : state) (list : handle) : elements :=
  walk fuel (links s) (_LIST_FST s list).

(** * Chains

    [lseg lk p l q]: following the links [lk] from [p] visits exactly the
    elements [l], in this order, and arrives at [q].  A list handle is well
    formed when its head starts a segment that arrives at [NULL]. *)

Fixpoint lseg (lk : addr → ptr) (p : ptr) (l : elements) (q : ptr) : Prop :=
  match l with
  | [] => p = q
  | e :: l' => p = Some e ∧ lseg lk (lk e) l' q
  end.

Definition chain (lk : addr → ptr) (p : ptr) (l : elements) : Prop :=
  lseg lk p l None.

Definition is_list (s : state) (list : handle) (l : elements) : Prop :=
  chain (links s) (_LIST_FST s list) l.

(** The comparator contract of the sort: the sign of [func a b] tells
    whether [a] precedes, equals or follows [b] in one total preorder. *)
Record comparator (func : addr → addr → Z) : Prop := {
  cmp_refl : ∀ a, func a a = 0;
  cmp_flip : ∀ a b, func a b < 0 ↔ 0 < func b a;
  cmp_trans : ∀ a b c, func a b ≤ 0 → func b c ≤ 0 → func a c ≤ 0
}.

(** Every adjacent pair of [l] is in order. *)
Definition nondecreasing (func : addr → addr → Z) (l : elements) : Prop :=
  ∀ (i : nat) a b, l !! i = Some a → l !! S i = Some b → func a b ≤ 0.

(** Where the result of [max] or [min] stands among the elements of [l].
    [m] is a maximum when no element follows it in the order; it is the
    earliest maximum when every element before it strictly precedes it, and
    the latest maximum when every element after it does.  Dually for the
    minimum. *)
Definition earliest_max (func : addr → addr → Z) (l : elements) (m : addr)
  : Prop :=
  ∃ l1 l2, l = l1 ++ m :: l2 ∧
    (∀ e, e ∈ l1 → 0 < func m e) ∧ (∀ e, e ∈ l2 → func e m ≤ 0).

Definition latest_max (func : addr → addr → Z) (l : elements) (m : addr)
  : Prop :=
  ∃ l1 l2, l = l1 ++ m :: l2 ∧
    (∀ e, e ∈ l1 → func e m ≤ 0) ∧ (∀ e, e ∈ l2 → 0 < func m e).

Definition earliest_min (func : addr → addr → Z) (l : elements) (m : addr)
  : Prop :=
  ∃ l1 l2, l = l1 ++ m :: l2 ∧
    (∀ e, e ∈ l1 → func m e < 0) ∧ (∀ e, e ∈ l2 → func m e ≤ 0).

Definition latest_min (func : addr → addr → Z) (l : elements) (m : addr)
  : Prop :=
  ∃ l1 l2, l = l1 ++ m :: l2 ∧
    (∀ e, e ∈ l1 → func m e ≤ 0) ∧ (∀ e, e ∈ l2 → func m e < 0).

(** A comparator for examples: elements are ordered by the tens of their
    address, so that 11, 12 and 13 are distinct elements that compare
    equal. *)
Definition cmp_key (a b : addr) : Z := Z.pos a / 10 - Z.pos b / 10.

(** The state after [LIST_REMOVE] has unlinked [e], the successor of [c]. *)
Definition unlinked (clean : bool) (s : state) (c e : addr) : state :=
  run_clean clean
    {| heads := heads s; links := <[c := links s e]> (links s);
       calls := calls s |} e.

(** ** Unique on sequences

    What [LIST_UNIQUE] computes, on the sequence of elements of the chain.
    [unique_scan_list func f l] is the inner loop with reference element
    [f] and the elements [l] after the cursor: it gives the elements that
    stay behind the cursor and those that are removed.  After a removal the
    cursor steps onto the element that followed the removed one, which is
    thereby kept without being compared; when there is no such element the
    cursor is [NULL] and the loop condition reads its link. *)

Fixpoint unique_scan_list (func : addr → addr → Z) (f : addr) (l : elements)
  : result (elements * elements) :=
  match l with
  | [] => Done ([], [])
  | e :: l' =>
      if func f e =? 0 then
        match l' with
        | [] => Fault
        | e' :: l'' =>
            '(k, r) ← unique_scan_list func f l'';
            Done (e' :: k, e :: r)
        end
      else
        '(k, r) ← unique_scan_list func f l';
        Done (e :: k, r)
  end.

Fixpoint unique_list (fuel : nat) (func : addr → addr → Z) (l : elements)
  : result (elements * elements) :=
  match l with
  | [] => Done ([], [])
  | f :: l' =>
      match fuel with
      | O => Timeout
      | S k =>
          '(k1, r1) ← unique_scan_list func f l';
          '(k2, r2) ← unique_list k func k1;
          Done (f :: k2, r1 ++ r2)
      end
  end.

(** ** The sort on sequences

    What [LIST_SORT] computes, on the sequence of elements of the chain:
    [merge] is the result of the merge loop on a left run [A] and a right
    run [B]; [merge_pairs] is one pass over the chain seen as a sequence of
    runs. *)

Fixpoint merge (func : addr → addr → Z) (A : elements) : elements → elements :=
  fix merge_right (B : elements) : elements :=
    match A, B with
    | [], _ => B
    | _, [] => A
    | a :: A', b :: B' =>
        if func a b <? 0 then a :: merge func A' B else b :: merge_right B'
    end.

Fixpoint merge_pairs (func : addr → addr → Z) (Rs : list elements)
  : list elements :=
  match Rs with
  | A :: B :: Rs' => merge func A B :: merge_pairs func Rs'
  | _ => Rs
  end.

(** The runs of a pass with run length [g]: all of length [g], except that
    the last one may be shorter (and is not empty). *)
Fixpoint runs_ok (g : nat) (Rs : list elements) : Prop :=
  match Rs with
  | [] => True
  | A :: Rs' =>
      match Rs' with
      | [] => (1 ≤ length A ≤ g)%nat
      | _ :: _ => length A = g ∧ runs_ok g Rs'
      end
  end.

(** The elements emitted in the current pass: [t] is the last of them and
    the links lead from [x] to [t]; the link of [t] itself is stale. *)
Definition out_ok (lk : addr → ptr) (x t : ptr) (out : elements) : Prop :=
  match t with
  | None => out = []
  | Some tl => ∃ init, out = init ++ [tl] ∧ lseg lk x init (Some tl)
  end.

(** The invariant of the merge loop: [out] has been emitted, [A] is what
    is left of the left run and [RC] is the chain from [r], the first
    [rs] elements of which are what is left of the right run. *)
Definition merge_inv (s : state) (v : merge_vars) (out A RC : elements)
  : Prop :=
  (∃ qa, lseg (links s) (v_l v) A qa) ∧
  v_ls v = Z.of_nat (length A) ∧
  chain (links s) (v_r v) RC ∧
  0 ≤ v_rs v ∧
  out_ok (links s) (v_x v) (v_t v) out ∧
  NoDup (out ++ A ++ RC).

Section chains.
Implicit Types (lk : addr → ptr) (p q : ptr) (l : elements) (e : addr).

Lemma lseg_app lk p l1 l2 q :
  lseg lk p (l1 ++ l2) q ↔ ∃ m, lseg lk p l1 m ∧ lseg lk m l2 q.
Proof.
  revert p. induction l1 as [|e l1 IH]; intros p; simpl.
  - split; [eauto | intros (m & -> & H); done].
  - rewrite IH. naive_solver.
Qed.

Lemma lseg_snoc lk p l e q :
  lseg lk p (l ++ [e]) q ↔ lseg lk p l (Some e) ∧ lk e = q.
Proof. rewrite lseg_app. simpl. naive_solver. Qed.

Lemma lseg_ext lk lk' p l q :
  (∀ e, e ∈ l → lk' e = lk e) → lseg lk p l q → lseg lk' p l q.
Proof.
  revert p. induction l as [|e l IH]; intros p Hext; simpl; [done|].
  intros [-> H]. split; [done|].
  rewrite Hext by set_solver. apply IH; [|done].
  intros e' He'. apply Hext. set_solver.
Qed.

Lemma lseg_insert lk p l q a v :
  a ∉ l → lseg lk p l q → lseg (<[a := v]> lk) p l q.
Proof.
  intros Ha. apply lseg_ext. intros e He.
  apply fn_lookup_insert_ne. intros ->. done.
Qed.

Lemma chain_nil lk l : chain lk None l → l = [].
Proof. destruct l; [done|]. intros [? _]. done. Qed.

Lemma chain_det lk p l1 l2 : chain lk p l1 → chain lk p l2 → l1 = l2.
Proof.
  unfold chain. revert p l2.
  induction l1 as [|e l1 IH]; intros p [|e' l2]; simpl; try done.
  - intros -> [? _]. done.
  - intros [-> _] ?. done.
  - intros [-> H1] [[= <-] H2]. f_equal. by eapply IH.
Qed.

Lemma chain_not_in lk e l : chain lk (lk e) l → e ∉ l.
Proof.
  intros H Hin. apply list_elem_of_split in Hin as (l1 & l2 & ->).
  pose proof H as H'. unfold chain in H'. apply lseg_app in H' as (m & _ & Hm).
  simpl in Hm. destruct Hm as [-> Hm].
  pose proof (chain_det _ _ _ _ H Hm) as Heq.
  apply (f_equal length) in Heq. rewrite length_app in Heq. simpl in Heq. lia.
Qed.

Lemma chain_NoDup lk p l : chain lk p l → NoDup l.
Proof.
  revert p. induction l as [|e l IH]; intros p; [constructor|].
  intros [-> H]. constructor; [by apply (chain_not_in lk) | by eapply IH].
Qed.

Lemma walk_chain lk p l : chain lk p l → walk (length l) lk p = l.
Proof.
  revert p. induction l as [|e l IH]; intros p Hch.
  - unfold chain in Hch. simpl in Hch. by subst p.
  - destruct Hch as [-> Hch]. simpl. f_equal. by apply IH.
Qed.

(** The elements of a well-formed list can be read off by [contents]. *)
Lemma contents_is_list (s : state) (list : handle) l :
  is_list s list l → contents (length l) s list = l.
Proof. apply walk_chain. Qed.

End chains.

(** * Walking a chain: [last] and [length] *)

Lemma last_loop_spec (s : state) (rest : elements) :
  ∀ (fuel : nat) (e : addr),
    chain (links s) (links s e) rest →
    (length rest ≤ fuel)%nat →
    ∃ x, last_loop fuel s e = Done x ∧ last (e :: rest) = Some x ∧
         links s x = None.
Proof.
  induction rest as [|e' rest IH]; intros fuel e Hch Hfuel.
  - unfold chain in Hch. simpl in Hch. exists e.
    destruct fuel; simpl; rewrite Hch; done.
  - destruct Hch as [Hlk Hch].
    destruct fuel as [|k]; [simpl in Hfuel; lia|].
    simpl. rewrite Hlk.
    destruct (IH k e') as (x & Hx & Hlast & Hnull);
      [done|simpl in Hfuel; lia|].
    exists x. done.
Qed.

Lemma length_loop_spec (s : state) (l : elements) :
  ∀ (fuel : nat) (p : ptr) (out : Z),
    chain (links s) p l →
    (length l ≤ fuel)%nat →
    length_loop fuel s p out = Done (out + Z.of_nat (length l)).
Proof.
  induction l as [|e l IH]; intros fuel p out Hch Hfuel.
  - unfold chain in Hch. simpl in Hch. subst p.
    destruct fuel; simpl; f_equal; lia.
  - destruct Hch as [-> Hch].
    destruct fuel as [|k]; [simpl in Hfuel; lia|].
    simpl length_loop. rewrite (IH k); [|done|simpl in Hfuel; lia].
    f_equal. rewrite length_cons. lia.
Qed.

(** * Operations on an empty list *)

(** C8: on an empty list [pop] and [drop] change nothing (the list stays
    empty and [clean] is not invoked), and [first], [last], [max], [min] and
    [find] return [NULL]; none of them faults or needs fuel. *)
Theorem empty_list_degrades (s : state) (list : handle) :
  LIST_EMPTY s list = true →
  (∀ clean,
     LIST_POP clean s list = s ∧
     LIST_EMPTY (LIST_POP clean s list) list = true ∧
     calls (LIST_POP clean s list) = calls s) ∧
  (∀ clean n,
     LIST_DROP clean s list n = s ∧
     LIST_EMPTY (LIST_DROP clean s list n) list = true ∧
     calls (LIST_DROP clean s list n) = calls s) ∧
  LIST_FIRST s list = None ∧
  (∀ fuel, LIST_LAST fuel s list = Done None) ∧
  (∀ fuel func, LIST_MAX fuel func s list = Done None) ∧
  (∀ fuel func, LIST_MIN fuel func s list = Done None) ∧
  (∀ fuel func, LIST_FIND fuel func s list = Done None).
Proof.
  intros Hempty. pose proof Hempty as Hfst.
  unfold LIST_EMPTY in Hfst. apply bool_decide_eq_true in Hfst.
  assert (Hpop : ∀ clean, LIST_POP clean s list = s).
  { intros clean. unfold LIST_POP. by rewrite Hfst. }
  assert (Hdrop : ∀ clean n, LIST_DROP clean s list n = s).
  { intros clean n. unfold LIST_DROP.
    destruct (Z.to_nat (to_intmax n)) as [|k]; simpl; [done|].
    rewrite Hpop, Hfst. done. }
  repeat split.
  - apply Hpop.
  - by rewrite Hpop.
  - by rewrite Hpop.
  - apply Hdrop.
  - by rewrite Hdrop.
  - by rewrite Hdrop.
  - done.
  - intros fuel. unfold LIST_LAST. by rewrite Hfst.
  - intros fuel func. unfold LIST_MAX. by rewrite Hfst.
  - intros fuel func. unfold LIST_MIN. by rewrite Hfst.
  - intros fuel func. unfold LIST_FIND. rewrite Hfst. by destruct fuel.
Qed.

Lemma empty_list_degrades_witness :
  LIST_FIND 0 (λ _, true) (LIST_NEW empty_state 0%nat) 0%nat = Done None.
Proof.
  apply (empty_list_degrades (LIST_NEW empty_state 0%nat) 0%nat).
  reflexivity.
Defined.

(** * Maximum and minimum *)

Lemma cmp_key_comparator : comparator cmp_key.
Proof. unfold cmp_key. split; intros; lia. Qed.

Lemma comparator_ge_flip func a b :
  comparator func → 0 ≤ func a b → func b a ≤ 0.
Proof.
  intros Hc Hab. destruct (Z.le_gt_cases (func b a) 0) as [|Hgt]; [done|].
  apply (cmp_flip _ Hc) in Hgt. lia.
Qed.

Section extremum.
Variable func : addr → addr → Z.
Hypothesis Hcmp : comparator func.

(** One round of the scan of [LIST_MAX] over the processed prefix [P]. *)
Lemma max_round (P : elements) (out e : addr) :
  P = [] ∧ out = e ∨ latest_max func P out →
  latest_max func (P ++ [e]) (if func out e <? 1 then e else out).
Proof.
  intros [[-> ->]|(l1 & l2 & -> & H1 & H2)].
  - exists [], []. destruct (func e e <? 1); set_solver.
  - destruct (Z.ltb_spec (func out e) 1) as [Hle|Hgt].
    + exists (l1 ++ out :: l2), []. split; [by rewrite <- app_assoc|].
      split; [|set_solver]. intros x Hx.
      apply (cmp_trans _ Hcmp x out e); [|lia].
      apply elem_of_app in Hx as [Hx|Hx]; [by apply H1|].
      apply elem_of_cons in Hx as [->|Hx]; [by rewrite (cmp_refl _ Hcmp)|].
      apply comparator_ge_flip; [done|]. specialize (H2 x Hx). lia.
    + exists l1, (l2 ++ [e]). split; [by rewrite <- app_assoc|].
      split; [done|]. intros x Hx.
      apply elem_of_app in Hx as [Hx|Hx]; [by apply H2|].
      apply list_elem_of_singleton in Hx as ->. lia.
Qed.

Lemma max_loop_spec (s : state) (rest : elements) :
  ∀ (fuel : nat) (e out : addr) (P : elements),
    chain (links s) (links s e) rest →
    P = [] ∧ out = e ∨ latest_max func P out →
    (length rest ≤ fuel)%nat →
    ∃ m, max_loop fuel func s out e = Done m ∧
         latest_max func (P ++ e :: rest) m.
Proof.
  induction rest as [|e' rest IH]; intros fuel e out P Hch HP Hfuel.
  - unfold chain in Hch. simpl in Hch.
    destruct fuel; simpl; rewrite Hch; eexists; (split; [done|]);
      by apply max_round.
  - destruct Hch as [Hlk Hch].
    destruct fuel as [|k]; [simpl in Hfuel; lia|].
    simpl. rewrite Hlk.
    destruct (IH k e' (if func out e <? 1 then e else out) (P ++ [e]))
      as (m & Hm & Hlast); [done| |simpl in Hfuel; lia|].
    { right. by apply max_round. }
    exists m. split; [done|]. by rewrite <- app_assoc in Hlast.
Qed.

Lemma min_round (P : elements) (out e : addr) :
  P = [] ∧ out = e ∨ latest_min func P out →
  latest_min func (P ++ [e]) (if -1 <? func out e then e else out).
Proof.
  intros [[-> ->]|(l1 & l2 & -> & H1 & H2)].
  - exists [], []. destruct (-1 <? func e e); set_solver.
  - destruct (Z.ltb_spec (-1) (func out e)) as [Hge|Hlt].
    + exists (l1 ++ out :: l2), []. split; [by rewrite <- app_assoc|].
      split; [|set_solver]. intros x Hx.
      apply (cmp_trans _ Hcmp e out x);
        [apply comparator_ge_flip; [done|lia]|].
      apply elem_of_app in Hx as [Hx|Hx]; [by apply H1|].
      apply elem_of_cons in Hx as [->|Hx]; [by rewrite (cmp_refl _ Hcmp)|].
      specialize (H2 x Hx). lia.
    + exists l1, (l2 ++ [e]). split; [by rewrite <- app_assoc|].
      split; [done|]. intros x Hx.
      apply elem_of_app in Hx as [Hx|Hx]; [by apply H2|].
      apply list_elem_of_singleton in Hx as ->. lia.
Qed.

Lemma min_loop_spec (s : state) (rest : elements) :
  ∀ (fuel : nat) (e out : addr) (P : elements),
    chain (links s) (links s e) rest →
    P = [] ∧ out = e ∨ latest_min func P out →
    (length rest ≤ fuel)%nat →
    ∃ m, min_loop fuel func s out e = Done m ∧
         latest_min func (P ++ e :: rest) m.
Proof.
  induction rest as [|e' rest IH]; intros fuel e out P Hch HP Hfuel.
  - unfold chain in Hch. simpl in Hch.
    destruct fuel; simpl; rewrite Hch; eexists; (split; [done|]);
      by apply min_round.
  - destruct Hch as [Hlk Hch].
    destruct fuel as [|k]; [simpl in Hfuel; lia|].
    simpl. rewrite Hlk.
    destruct (IH k e' (if -1 <? func out e then e else out) (P ++ [e]))
      as (m & Hm & Hlast); [done| |simpl in Hfuel; lia|].
    { right. by apply min_round. }
    exists m. split; [done|]. by rewrite <- app_assoc in Hlast.
Qed.
End extremum.

(** C5: on a non-empty list [max] and [min] return the latest element among
    those tied for best: an element that compares equal to the running best
    replaces it.  On an empty list both return [NULL]. *)
Theorem max_min_ties_to_last (func : addr → addr → Z) (s : state)
  (list : handle) (l : elements) (fuel : nat) :
  comparator func → is_list s list l → (length l ≤ fuel)%nat →
  (l = [] →
     LIST_MAX fuel func s list = Done None ∧
     LIST_MIN fuel func s list = Done None) ∧
  (l ≠ [] →
     (∃ m, LIST_MAX fuel func s list = Done (Some m) ∧ latest_max func l m) ∧
     (∃ m, LIST_MIN fuel func s list = Done (Some m) ∧ latest_min func l m)).
Proof.
  intros Hc Hl Hfuel. unfold is_list in Hl. split.
  - intros ->. unfold chain in Hl. simpl in Hl.
    unfold LIST_MAX, LIST_MIN. by rewrite Hl.
  - intros Hne. destruct l as [|e rest]; [done|]. destruct Hl as [Hfst Hch].
    simpl in Hfuel. unfold LIST_MAX, LIST_MIN. rewrite Hfst. split.
    + destruct (max_loop_spec func Hc s rest fuel e e []) as (m & -> & Hm);
        [done|by left|lia|]. by exists m.
    + destruct (min_loop_spec func Hc s rest fuel e e []) as (m & -> & Hm);
        [done|by left|lia|]. by exists m.
Qed.

Lemma max_min_ties_to_last_witness :
  let s := push_all empty_state 0%nat [21; 11; 22; 12]%positive in
  (∃ m, LIST_MAX 4 cmp_key s 0%nat = Done (Some m) ∧
        latest_max cmp_key [21; 11; 22; 12]%positive m) ∧
  (∃ m, LIST_MIN 4 cmp_key s 0%nat = Done (Some m) ∧
        latest_min cmp_key [21; 11; 22; 12]%positive m).
Proof.
  intros s.
  apply (max_min_ties_to_last cmp_key s 0%nat [21; 11; 22; 12]%positive 4).
  - exact cmp_key_comparator.
  - unfold is_list, chain. simpl. repeat split; reflexivity.
  - simpl. lia.
  - discriminate.
Defined.

(** C5, ties do not resolve to the first element scanned: on the chain
    11, 12 of two elements that compare equal, [max] and [min] both return
    12, which is not the earliest of the tied elements. *)
Lemma max_min_ties_to_first_counterexample :
  let s := push_all empty_state 0%nat [11; 12]%positive in
  comparator cmp_key ∧
  is_list s 0%nat [11; 12]%positive ∧
  cmp_key 11 12 = 0 ∧
  LIST_MAX 2 cmp_key s 0%nat = Done (Some 12%positive) ∧
  ¬ earliest_max cmp_key [11; 12]%positive 12%positive ∧
  LIST_MIN 2 cmp_key s 0%nat = Done (Some 12%positive) ∧
  ¬ earliest_min cmp_key [11; 12]%positive 12%positive.
Proof.
  intros s. split; [exact cmp_key_comparator|].
  split; [unfold is_list, chain; simpl; repeat split; reflexivity|].
  split; [reflexivity|]. split; [reflexivity|].
  assert (Hsplit : ∀ l1 l2 : elements,
    [11; 12]%positive = l1 ++ 12%positive :: l2 → l1 = [11%positive]).
  { intros [|x [|y l1]] l2 Heq; simplify_eq/=; [done|].
    destruct l1; simplify_eq/=. }
  split; [|split; [reflexivity|]].
  - intros (l1 & l2 & Heq & H1 & _). apply Hsplit in Heq as ->.
    specialize (H1 11%positive). unfold cmp_key in H1. simpl in H1.
    assert (11%positive ∈ [11%positive]) as Hin by set_solver.
    specialize (H1 Hin). vm_compute in H1. discriminate.
  - intros (l1 & l2 & Heq & H1 & _). apply Hsplit in Heq as ->.
    assert (11%positive ∈ [11%positive]) as Hin by set_solver.
    specialize (H1 11%positive Hin). vm_compute in H1. discriminate.
Qed.

(** * Removal leaves the removed element alone *)

(** C10: [pop] and [remove] do not write to the link of the element they
    remove: it still holds the former successor after the removal, and this
    is also the value [clean] finds when it is handed the element. *)
Theorem removed_link_untouched (clean : bool) (s : state) :
  (∀ list e,
     LIST_FIRST s list = Some e →
     links (LIST_POP clean s list) e = links s e ∧
     (clean = true →
      calls (LIST_POP clean s list) = calls s ++ [Call e (links s e)])) ∧
  (∀ a e,
     links s a = Some e →
     ∃ s', LIST_REMOVE clean s (Some a) = Done s' ∧
           links s' e = links s e ∧
           (clean = true → calls s' = calls s ++ [Call e (links s e)])).
Proof.
  split.
  - intros list e Hfst. unfold LIST_FIRST in Hfst. unfold LIST_POP.
    rewrite Hfst. destruct clean; simpl; split; done.
  - intros a e Ha. unfold LIST_REMOVE. simpl. rewrite Ha. simpl.
    eexists. split; [done|].
    assert (Hlk : (<[a := links s e]> (links s)) e = links s e).
    { destruct (decide (a = e)) as [->|Hne].
      - apply fn_lookup_insert.
      - by apply fn_lookup_insert_ne. }
    destruct clean; simpl; rewrite Hlk; split; done.
Qed.

Lemma removed_link_untouched_witness :
  let s := push_all empty_state 0%nat [1; 2; 3]%positive in
  links (LIST_POP true s 0%nat) 1%positive = Some 2%positive ∧
  calls (LIST_POP true s 0%nat) = [Call 1%positive (Some 2%positive)].
Proof.
  intros s.
  destruct (removed_link_untouched true s) as [Hpop _].
  destruct (Hpop 0%nat 1%positive) as [H1 H2]; [reflexivity|].
  split; [exact H1 | exact (H2 eq_refl)].
Defined.

(** * Append *)

(** C7: [append] leaves in [list1] its former elements, in order, followed
    by the former elements of [list2], in order; [list2] is left empty; the
    length of [list1] becomes the sum of the two former lengths; and when
    [list1] was empty its head is the former head of [list2], with no link
    rewritten.  The two lists are distinct handles whose chains end in
    [NULL] and share no element. *)
Theorem append_spec (s : state) (list1 list2 : handle) (l1 l2 : elements)
  (fuel : nat) :
  list1 ≠ list2 →
  is_list s list1 l1 → is_list s list2 l2 → NoDup (l1 ++ l2) →
  (length l1 + length l2 ≤ fuel)%nat →
  ∃ s',
    LIST_APPEND fuel s list1 list2 = Done s' ∧
    is_list s' list1 (l1 ++ l2) ∧
    is_list s' list2 [] ∧ LIST_EMPTY s' list2 = true ∧
    (∃ n1 n2,
       LIST_LENGTH fuel s list1 = Done n1 ∧
       LIST_LENGTH fuel s list2 = Done n2 ∧
       LIST_LENGTH fuel s' list1 = Done (n1 + n2)) ∧
    (l1 = [] →
       LIST_FIRST s' list1 = LIST_FIRST s list2 ∧ links s' = links s).
Proof.
  intros Hne H1 H2 Hdup Hfuel.
  assert (Hlen : ∀ s', is_list s' list1 (l1 ++ l2) →
    ∃ n1 n2,
      LIST_LENGTH fuel s list1 = Done n1 ∧
      LIST_LENGTH fuel s list2 = Done n2 ∧
      LIST_LENGTH fuel s' list1 = Done (n1 + n2)).
  { intros s' Hs'. exists (Z.of_nat (length l1)), (Z.of_nat (length l2)).
    unfold LIST_LENGTH.
    rewrite (length_loop_spec s l1), (length_loop_spec s l2),
      (length_loop_spec s' (l1 ++ l2));
      rewrite ?length_app; try done; try lia.
    repeat split; f_equal; lia. }
  unfold is_list, _LIST_FST in H1, H2.
  unfold LIST_APPEND, LIST_LAST, _LIST_FST. simpl.
  rewrite fn_lookup_insert_ne by done.
  destruct l1 as [|e rest].
  - unfold chain in H1. simpl in H1. rewrite H1. simpl.
    eexists. split; [done|].
    assert (Hres : is_list
      (set_LIST_FST (set_LIST_FST s list2 None) list1 (heads s list2)) list1 l2).
    { unfold is_list, _LIST_FST. simpl. by rewrite fn_lookup_insert. }
    split; [done|]. split; [|split; [|split]].
    + unfold is_list, _LIST_FST, chain. simpl.
      rewrite fn_lookup_insert_ne by done. by rewrite fn_lookup_insert.
    + unfold LIST_EMPTY, _LIST_FST. simpl.
      rewrite fn_lookup_insert_ne by done. by rewrite fn_lookup_insert.
    + by apply Hlen.
    + intros _. unfold LIST_FIRST, _LIST_FST. simpl.
      by rewrite fn_lookup_insert.
  - destruct H1 as [Hfst Hch]. rewrite Hfst.
    destruct (last_loop_spec (set_LIST_FST s list2 None) rest fuel e)
      as (x & Hx & Hlast & Hnull); [done|simpl in Hfuel; lia|].
    rewrite Hx. simpl.
    eexists. split; [done|].
    apply last_Some in Hlast as [init Hinit].
    assert (Hres : chain (<[x := heads s list2]> (links s)) (Some e)
                     ((e :: rest) ++ l2)).
    { rewrite Hinit. rewrite <- app_assoc. unfold chain. apply lseg_app.
      exists (Some x). rewrite Hinit, <- app_assoc in Hdup.
      apply NoDup_app in Hdup as (_ & Hdisj & Hdup).
      apply NoDup_cons in Hdup as [Hx2 _]. split.
      - apply lseg_insert; [intros Hin; by apply (Hdisj x Hin); left|].
        assert (Hseg : lseg (links s) (Some e) (init ++ [x]) None).
        { rewrite <- Hinit. by split. }
        apply lseg_snoc in Hseg as [Hseg _]. done.
      - split; [done|]. rewrite fn_lookup_insert. by apply lseg_insert. }
    split; [|split; [|split; [|split]]].
    + unfold is_list, _LIST_FST. simpl.
      rewrite fn_lookup_insert_ne by done. by rewrite Hfst.
    + unfold is_list, _LIST_FST, chain. simpl. by rewrite fn_lookup_insert.
    + unfold LIST_EMPTY, _LIST_FST. simpl. by rewrite fn_lookup_insert.
    + apply Hlen. unfold is_list, _LIST_FST. simpl.
      rewrite fn_lookup_insert_ne by done. by rewrite Hfst.
    + intros [=].
Qed.

Lemma append_spec_witness :
  let s := push_all (push_all empty_state 0%nat [1; 2]%positive)
             1%nat [3; 4]%positive in
  ∃ s', LIST_APPEND 4 s 0%nat 1%nat = Done s' ∧
        is_list s' 0%nat [1; 2; 3; 4]%positive ∧
        is_list s' 1%nat [].
Proof.
  intros s.
  destruct (append_spec s 0%nat 1%nat [1; 2]%positive [3; 4]%positive 4)
    as (s' & Happ & Hl1 & Hl2 & _).
  - discriminate.
  - unfold is_list, chain. simpl. repeat split; reflexivity.
  - unfold is_list, chain. simpl. repeat split; reflexivity.
  - apply (bool_decide_unpack _). vm_compute. exact I.
  - simpl. lia.
  - exists s'. split; [exact Happ|]. split; [exact Hl1 | exact Hl2].
Defined.

(** * Take

    The two loops of [LIST_TAKE] on a well-formed list.  The first stops at
    the element number [max 1 n], or at [NULL] when the chain has fewer
    elements; the second removes whatever follows that element, and reads
    the link of [NULL] when there is no such element.  Here [n] is the
    argument after its conversion to [intmax_t]. *)

Lemma to_intmax_id (n : Z) : - 2 ^ 63 ≤ n < 2 ^ 63 → to_intmax n = n.
Proof. intros Hn. unfold to_intmax. rewrite Z.mod_small; lia. Qed.

Lemma to_intmax_wrap (n : Z) :
  2 ^ 63 ≤ n < 2 ^ 64 → to_intmax n = n - 2 ^ 64.
Proof.
  intros Hn. unfold to_intmax.
  replace (n + 2 ^ 63) with (n - 2 ^ 63 + 1 * 2 ^ 64) by lia.
  rewrite Z.mod_add by lia. rewrite Z.mod_small; lia.
Qed.

Lemma take_skip_spec (s : state) (n : Z) (L : elements) :
  ∀ (fuel : nat) (p : ptr) (i : Z),
    chain (links s) p L → (length L ≤ fuel)%nat →
    let k := Z.to_nat (n - i) in
    ∃ f, take_skip fuel s p i n = Done f ∧
         lseg (links s) p (take k L) f ∧
         chain (links s) f (drop k L).
Proof.
  induction L as [|e L IH]; intros fuel p i Hch Hfuel k.
  - unfold chain in Hch. simpl in Hch. subst p. exists None.
    rewrite take_nil, drop_nil. by destruct fuel.
  - destruct Hch as [-> Hch].
    destruct (Z.ltb_spec i n) as [Hlt|Hge].
    + destruct fuel as [|fuel]; [simpl in Hfuel; lia|].
      simpl. destruct (Z.ltb_spec i n) as [_|?]; [|lia].
      destruct (IH fuel (links s e) (i + 1)) as (f & Hf & Hseg & Hrest);
        [done|simpl in Hfuel; lia|].
      assert (Hk : k = S (Z.to_nat (n - (i + 1)))) by (unfold k; lia).
      rewrite Hk. simpl. by exists f.
    + assert (Hk : k = 0%nat) by (unfold k; lia).
      rewrite Hk. simpl. exists (Some e).
      by destruct fuel; simpl; (destruct (Z.ltb_spec i n) as [?|_]; [lia|]).
Qed.

Lemma take_cut_spec (clean : bool) (e : addr) (rest : elements) :
  ∀ (fuel : nat) (s : state),
    chain (links s) (links s e) rest → (length rest ≤ fuel)%nat →
    ∃ s', take_cut fuel clean s (Some e) = Done s' ∧
          heads s' = heads s ∧ links s' e = None ∧
          (∀ a, a ≠ e → links s' a = links s a) ∧
          calls s' = calls s ++
            (if clean then (λ x, Call x (links s x)) <$> rest else []).
Proof.
  induction rest as [|b rest IH]; intros fuel s Hch Hfuel.
  - unfold chain in Hch. simpl in Hch. exists s.
    split; [destruct fuel; simpl; by rewrite Hch|].
    repeat split; try done. destruct clean; by rewrite app_nil_r.
  - pose proof (chain_not_in _ _ _ Hch) as Hnotin.
    destruct Hch as [Hlk Hch].
    destruct fuel as [|fuel]; [simpl in Hfuel; lia|].
    assert (Hbe : b ≠ e) by set_solver.
    assert (He : e ∉ rest) by set_solver.
    set (s1 := run_clean clean
      {| heads := heads s; links := <[e := links s b]> (links s);
         calls := calls s |} b).
    assert (Hlinks1 : links s1 = <[e := links s b]> (links s)).
    { unfold s1, run_clean. by destruct clean. }
    assert (Hheads1 : heads s1 = heads s).
    { unfold s1, run_clean. by destruct clean. }
    assert (Hcalls1 : calls s1 =
              calls s ++ (if clean then [Call b (links s b)] else [])).
    { unfold s1, run_clean. destruct clean; simpl; [|by rewrite app_nil_r].
      by rewrite fn_lookup_insert_ne. }
    destruct (IH fuel s1) as (s' & Hrun & Hh & Hnull & Hfr & Hc).
    { rewrite Hlinks1, fn_lookup_insert. by apply lseg_insert. }
    { simpl in Hfuel. lia. }
    exists s'. split.
    { simpl. rewrite Hlk. simpl. unfold LIST_REMOVE. simpl. rewrite Hlk.
      simpl. fold s1. done. }
    split; [congruence|]. split; [done|]. split.
    { intros a Ha. rewrite Hfr by done. rewrite Hlinks1.
      by apply fn_lookup_insert_ne. }
    rewrite Hc, Hcalls1, <- app_assoc. f_equal.
    destruct clean; [|done]. csimpl. f_equal.
    apply list_fmap_ext. intros i x Hx. f_equal.
    apply fn_lookup_insert_ne. intros ->.
    apply He. by eapply list_elem_of_lookup_2.
Qed.

(** X24: on a well-formed, non-empty list and with [n] up to its length,
    [take] keeps the first [max 1 n] elements and hands the others to
    [clean], when given, in the order of the chain.  [n] is the argument as
    the macro reads it, converted to [intmax_t]: the argument itself when
    that is within the range of [intmax_t] ([to_intmax_id]). *)
Lemma LIST_TAKE_in_range (clean : bool) (s : state) (list : handle)
  (L : elements) (n : Z) (fuel : nat) :
  is_list s list L → (length L ≤ fuel)%nat →
  L ≠ [] → to_intmax n ≤ Z.of_nat (length L) →
  let k := Z.to_nat (Z.max 1 (to_intmax n)) in
  ∃ s', LIST_TAKE fuel clean s list n = Done s' ∧
        is_list s' list (take k L) ∧
        cleaned s' = cleaned s ++ (if clean then drop k L else []).
Proof.
  intros HL Hfuel Hne Hn k. unfold is_list in HL.
  destruct (take_skip_spec s (to_intmax n) L fuel (_LIST_FST s list) 1
              HL Hfuel) as (f & Hskip & Hseg & Hrest).
  set (j := Z.to_nat (to_intmax n - 1)) in *.
  assert (Hk : k = S j) by (unfold k, j; lia).
  assert (Hj : (j < length L)%nat).
  { unfold j. destruct L; [done|]. simpl in *. lia. }
  destruct (drop j L) as [|e rest] eqn:Hdrop.
  { apply (f_equal length) in Hdrop. rewrite length_drop in Hdrop.
    simpl in Hdrop. lia. }
  destruct Hrest as [-> Hrest].
  destruct (take_cut_spec clean e rest fuel s Hrest)
    as (s' & Hcut & Hh & Hnull & Hfr & Hc).
  { apply (f_equal length) in Hdrop. rewrite length_drop in Hdrop.
    simpl in Hdrop. lia. }
  assert (Hsplit : L = take j L ++ e :: rest).
  { by rewrite <- Hdrop, take_drop. }
  assert (Htake : take k L = take j L ++ [e]).
  { rewrite Hk. rewrite Hsplit at 1.
    rewrite take_app_ge by (rewrite length_take; lia).
    rewrite length_take. replace (S j - j `min` length L)%nat with 1%nat by lia.
    done. }
  assert (Hdropk : drop k L = rest).
  { rewrite Hk. rewrite Hsplit at 1.
    rewrite drop_app_ge by (rewrite length_take; lia).
    rewrite length_take. replace (S j - j `min` length L)%nat with 1%nat by lia.
    done. }
  pose proof (chain_NoDup _ _ _ HL) as Hdup. rewrite Hsplit in Hdup.
  apply NoDup_app in Hdup as (_ & Hdisj & _).
  exists s'. split; [unfold LIST_TAKE; by rewrite Hskip|]. split.
  - unfold is_list, _LIST_FST. rewrite Hh, Htake. apply lseg_snoc.
    split; [|done]. eapply lseg_ext; [|exact Hseg].
    intros a Ha. apply Hfr. intros ->. apply (Hdisj e Ha). set_solver.
  - unfold cleaned. rewrite Hc, fmap_app, Hdropk. f_equal.
    destruct clean; [|done]. rewrite <- list_fmap_compose.
    by rewrite list_fmap_id.
Qed.

Lemma LIST_TAKE_in_range_witness :
  let s := push_all empty_state 0%nat [1; 2; 3; 4]%positive in
  (∃ s', LIST_TAKE 4 true s 0%nat 3 = Done s' ∧
         is_list s' 0%nat [1; 2; 3]%positive ∧
         cleaned s' = [4]%positive) ∧
  (∃ s', LIST_TAKE 4 true s 0%nat (2 ^ 64 - 1) = Done s' ∧
         is_list s' 0%nat [1]%positive ∧
         cleaned s' = [2; 3; 4]%positive).
Proof.
  intros s. split.
  - destruct (LIST_TAKE_in_range true s 0%nat [1; 2; 3; 4]%positive 3 4)
      as (s' & Hrun & HL & Hc).
    + unfold is_list, chain. simpl. repeat split; reflexivity.
    + simpl. lia.
    + discriminate.
    + vm_compute. discriminate.
    + exists s'. split; [exact Hrun|]. split; [exact HL | exact Hc].
  - destruct (LIST_TAKE_in_range true s 0%nat [1; 2; 3; 4]%positive
                (2 ^ 64 - 1) 4) as (s' & Hrun & HL & Hc).
    + unfold is_list, chain. simpl. repeat split; reflexivity.
    + simpl. lia.
    + discriminate.
    + vm_compute. discriminate.
    + exists s'. split; [exact Hrun|]. split; [exact HL | exact Hc].
Defined.

(** X25: on a well-formed list that is empty, or with [n] above the length
    of the chain, [take] reads the link of [NULL].  [n] is the argument
    converted to [intmax_t], as the macro compares it: every argument from 0
    up to the largest [intmax_t] stands for itself, and an argument of [2^63]
    or more, which the conversion turns negative, is never above the
    length. *)
Lemma LIST_TAKE_beyond (clean : bool) (s : state) (list : handle)
  (L : elements) (n : Z) (fuel : nat) :
  is_list s list L → (length L ≤ fuel)%nat →
  L = [] ∨ Z.of_nat (length L) < to_intmax n →
  LIST_TAKE fuel clean s list n = Fault.
Proof.
  intros HL Hfuel Hn. unfold is_list in HL.
  destruct (take_skip_spec s (to_intmax n) L fuel (_LIST_FST s list) 1
              HL Hfuel) as (f & Hskip & Hseg & Hrest).
  rewrite drop_ge in Hrest by (destruct Hn as [->|?]; simpl; lia).
  unfold chain in Hrest. simpl in Hrest. subst f.
  unfold LIST_TAKE. rewrite Hskip. by destruct fuel.
Qed.

Lemma LIST_TAKE_beyond_witness :
  LIST_TAKE 2 true (push_all empty_state 0%nat [1; 2]%positive) 0%nat 3
  = Fault ∧
  LIST_TAKE 2 true (push_all empty_state 0%nat [1; 2]%positive) 0%nat
    (2 ^ 63 - 1) = Fault.
Proof.
  split.
  - apply (LIST_TAKE_beyond true _ 0%nat [1; 2]%positive 3 2).
    + unfold is_list, chain. simpl. repeat split; reflexivity.
    + simpl. lia.
    + right. vm_compute. reflexivity.
  - apply (LIST_TAKE_beyond true _ 0%nat [1; 2]%positive (2 ^ 63 - 1) 2).
    + unfold is_list, chain. simpl. repeat split; reflexivity.
    + simpl. lia.
    + right. vm_compute. reflexivity.
Defined.

(** C6: [take] keeps the first [n] elements and cleans the others in order
    only for [n] from 1 up to the length of the chain.  On the chain
    1, 2, 3, 4: with [n = 2] it leaves 1, 2 and cleans 3 then 4; with
    [n = 0] it leaves 1 and cleans 2, 3, 4, where no element should stay;
    with [n = 5] it reads the link of [NULL], where all four should stay;
    and it reads the link of [NULL] on an empty list, for every [n]. *)
Theorem take_outside_range :
  let s := push_all empty_state 0%nat [1; 2; 3; 4]%positive in
  is_list s 0%nat [1; 2; 3; 4]%positive ∧
  (∃ s', LIST_TAKE 4 true s 0%nat 2 = Done s' ∧
         is_list s' 0%nat [1; 2]%positive ∧
         cleaned s' = [3; 4]%positive) ∧
  (∃ s', LIST_TAKE 4 true s 0%nat 0 = Done s' ∧
         is_list s' 0%nat [1]%positive ∧
         cleaned s' = [2; 3; 4]%positive) ∧
  (∀ fuel, LIST_TAKE (4 + fuel) true s 0%nat 5 = Fault) ∧
  (∀ fuel n, LIST_TAKE fuel true empty_state 0%nat n = Fault).
Proof.
  intros s.
  split; [unfold is_list, chain; simpl; repeat split; reflexivity|].
  split; [|split; [|split]].
  - eexists. split; [reflexivity|].
    split; [unfold is_list, chain; simpl; repeat split; reflexivity|].
    reflexivity.
  - eexists. split; [reflexivity|].
    split; [unfold is_list, chain; simpl; repeat split; reflexivity|].
    reflexivity.
  - intros [|fuel]; reflexivity.
  - intros fuel n. by destruct fuel.
Qed.

(** * Unique *)

Lemma unique_scan_null (fuel : nat) (clean : bool) func (s : state) (f : addr) :
  unique_scan fuel clean func s f None = Fault.
Proof. by destruct fuel. Qed.

Lemma unlinked_links clean s c e :
  links (unlinked clean s c e) = <[c := links s e]> (links s).
Proof. unfold unlinked, run_clean. by destruct clean. Qed.

Lemma unlinked_heads clean s c e : heads (unlinked clean s c e) = heads s.
Proof. unfold unlinked, run_clean. by destruct clean. Qed.

Lemma unlinked_cleaned clean s c e :
  cleaned (unlinked clean s c e) = cleaned s ++ (if clean then [e] else []).
Proof.
  unfold unlinked, run_clean, cleaned. destruct clean; simpl;
    [by rewrite fmap_app|by rewrite app_nil_r].
Qed.

Lemma LIST_REMOVE_unlinked clean s c e :
  links s c = Some e →
  LIST_REMOVE clean s (Some c) = Done (unlinked clean s c e).
Proof. intros Hlk. unfold LIST_REMOVE. simpl. by rewrite Hlk. Qed.

Lemma unique_scan_step_eq fuel clean func s f c e :
  links s c = Some e → func f e = 0 →
  unique_scan (S fuel) clean func s f (Some c)
  = unique_scan fuel clean func (unlinked clean s c e) f (links s e).
Proof.
  intros Hlk Heq. simpl. rewrite Hlk. simpl.
  destruct (Z.eqb_spec (func f e) 0) as [_|?]; [|done].
  rewrite (LIST_REMOVE_unlinked clean s c e Hlk). simpl.
  by rewrite unlinked_links, fn_lookup_insert.
Qed.

Lemma unique_scan_step_ne fuel clean func s f c e :
  links s c = Some e → func f e ≠ 0 →
  unique_scan (S fuel) clean func s f (Some c)
  = unique_scan fuel clean func s f (Some e).
Proof.
  intros Hlk Hne. simpl. rewrite Hlk. simpl.
  destruct (Z.eqb_spec (func f e) 0) as [?|_]; [done|].
  simpl. by rewrite Hlk.
Qed.

Lemma unique_scan_spec (clean : bool) (func : addr → addr → Z) (f : addr)
  (l : elements) :
  ∀ (fuel : nat) (s : state) (c : addr),
    chain (links s) (links s c) l → (length l ≤ fuel)%nat →
    match unique_scan_list func f l with
    | Done (k, r) =>
        ∃ s', unique_scan fuel clean func s f (Some c) = Done s' ∧
              heads s' = heads s ∧
              chain (links s') (links s' c) k ∧
              (∀ a, a ∉ c :: l → links s' a = links s a) ∧
              (∀ a, a ∈ k → a ∈ l) ∧
              (length k ≤ length l)%nat ∧
              cleaned s' = cleaned s ++ (if clean then r else [])
    | Fault => unique_scan fuel clean func s f (Some c) = Fault
    | Timeout => False
    end.
Proof.
  set (P := λ l : elements,
    ∀ (fuel : nat) (s : state) (c : addr),
      chain (links s) (links s c) l → (length l ≤ fuel)%nat →
      match unique_scan_list func f l with
      | Done (k, r) =>
          ∃ s', unique_scan fuel clean func s f (Some c) = Done s' ∧
                heads s' = heads s ∧
                chain (links s') (links s' c) k ∧
                (∀ a, a ∉ c :: l → links s' a = links s a) ∧
                (∀ a, a ∈ k → a ∈ l) ∧
                (length k ≤ length l)%nat ∧
                cleaned s' = cleaned s ++ (if clean then r else [])
      | Fault => unique_scan fuel clean func s f (Some c) = Fault
      | Timeout => False
      end).
  assert (Hnil : P []).
  { intros fuel s c Hch _. unfold chain in Hch. simpl in Hch. simpl.
    exists s. split; [destruct fuel; simpl; by rewrite Hch|].
    repeat split; try done. destruct clean; by rewrite app_nil_r. }
  (* the element after the cursor is kept *)
  assert (Hkeep : ∀ e l, func f e ≠ 0 → P l → P (e :: l)).
  { intros e l0 Hne IH fuel s c Hch Hfuel.
    pose proof (chain_not_in _ _ _ Hch) as Hc.
    destruct Hch as [Hlk Hch].
    destruct fuel as [|fuel]; [simpl in Hfuel; lia|].
    rewrite (unique_scan_step_ne fuel clean func s f c e Hlk Hne).
    cbn [unique_scan_list].
    destruct (Z.eqb_spec (func f e) 0) as [?|_]; [done|].
    specialize (IH fuel s e Hch).
    destruct (unique_scan_list func f l0) as [[k r]| |]; simpl.
    - destruct IH as (s' & Hrun & Hh & Hk & Hfr & Hsub & Hlen & Hcl);
        [simpl in Hfuel; lia|].
      exists s'. split; [done|]. split; [done|].
      split; [|split; [|split; [|split]]].
      + rewrite Hfr by set_solver. rewrite Hlk. by split.
      + intros a Ha. apply Hfr. set_solver.
      + intros a Ha. set_solver.
      + simpl. lia.
      + done.
    - apply IH. simpl in Hfuel. lia.
    - apply IH. simpl in Hfuel. lia. }
  assert (H : ∀ l, P l ∧ ∀ e, P (e :: l)).
  { clear l. induction l as [|e' l [IH1 IH2]].
    - split; [done|]. intros e.
      destruct (Z.eq_dec (func f e) 0) as [Heq|Hne]; [|by apply Hkeep].
      intros fuel s c Hch Hfuel. destruct Hch as [Hlk Hnull].
      unfold lseg in Hnull.
      destruct fuel as [|fuel]; [simpl in Hfuel; lia|].
      rewrite (unique_scan_step_eq fuel clean func s f c e Hlk Heq).
      rewrite Hnull, unique_scan_null. cbn [unique_scan_list].
      by destruct (Z.eqb_spec (func f e) 0) as [_|?].
    - split; [apply IH2|]. intros e.
      destruct (Z.eq_dec (func f e) 0) as [Heq|Hne];
        [|by apply Hkeep, IH2].
      intros fuel s c Hch Hfuel.
      pose proof (chain_not_in _ _ _ Hch) as Hc.
      pose proof (chain_NoDup _ _ _ Hch) as Hdup.
      destruct Hch as [Hlk Hch]. pose proof Hch as [Hlk' Hch'].
      destruct fuel as [|fuel]; [simpl in Hfuel; lia|].
      assert (Hce' : c ≠ e') by set_solver.
      rewrite (unique_scan_step_eq fuel clean func s f c e Hlk Heq), Hlk'.
      cbn [unique_scan_list].
      destruct (Z.eqb_spec (func f e) 0) as [_|?]; [|done].
      set (s1 := unlinked clean s c e).
      assert (Hch1 : chain (links s1) (links s1 e') l).
      { unfold s1. rewrite unlinked_links, fn_lookup_insert_ne by done.
        apply lseg_insert; [set_solver|done]. }
      specialize (IH1 fuel s1 e' Hch1).
      destruct (unique_scan_list func f l) as [[k r]| |]; simpl.
      + destruct IH1 as (s' & Hrun & Hh & Hk & Hfr & Hsub & Hlen & Hcl);
          [simpl in Hfuel; lia|].
        exists s'. split; [done|].
        split; [by rewrite Hh; apply unlinked_heads|].
        split; [|split; [|split; [|split]]].
        * rewrite Hfr by set_solver. unfold s1.
          rewrite unlinked_links, fn_lookup_insert, Hlk'. by split.
        * intros a Ha. rewrite Hfr by set_solver. unfold s1.
          rewrite unlinked_links. apply fn_lookup_insert_ne. set_solver.
        * intros a Ha. set_solver.
        * simpl. lia.
        * rewrite Hcl. unfold s1. rewrite unlinked_cleaned, <- app_assoc.
          by destruct clean.
      + apply IH1. simpl in Hfuel. lia.
      + apply IH1. simpl in Hfuel. lia. }
  apply H.
Qed.

Lemma unique_loop_spec (clean : bool) (func : addr → addr → Z) (fuel0 : nat) :
  ∀ (fuel : nat) (l : elements) (s : state) (p : ptr),
    chain (links s) p l → (length l ≤ fuel0)%nat →
    match unique_list fuel func l with
    | Done (K, R) =>
        ∃ s', unique_loop fuel0 fuel clean func s p = Done s' ∧
              heads s' = heads s ∧
              chain (links s') p K ∧
              (∀ a, a ∉ l → links s' a = links s a) ∧
              cleaned s' = cleaned s ++ (if clean then R else [])
    | Fault => unique_loop fuel0 fuel clean func s p = Fault
    | Timeout =>
        unique_loop fuel0 fuel clean func s p = Timeout ∧
        (fuel < length l)%nat
    end.
Proof.
  induction fuel as [|fuel IH]; intros l s p Hch Hfuel0.
  - destruct l as [|f l].
    + unfold chain in Hch. simpl in Hch. subst p. simpl.
      exists s. repeat split; try done. destruct clean; by rewrite app_nil_r.
    + destruct Hch as [-> _]. simpl. split; [done|lia].
  - destruct l as [|f l].
    + unfold chain in Hch. simpl in Hch. subst p. simpl.
      exists s. repeat split; try done. destruct clean; by rewrite app_nil_r.
    + pose proof (chain_not_in _ _ _ (proj2 Hch)) as Hf.
      destruct Hch as [-> Hch]. cbn [unique_list unique_loop].
      pose proof (unique_scan_spec clean func f l fuel0 s f Hch) as Hscan.
      destruct (unique_scan_list func f l) as [[k1 r1]| |]; simpl.
      * destruct Hscan as (s1 & Hrun1 & Hh1 & Hk1 & Hfr1 & Hsub1 & Hlen1 & Hcl1);
          [simpl in Hfuel0; lia|].
        rewrite Hrun1. simpl.
        specialize (IH k1 s1 (links s1 f) Hk1).
        destruct (unique_list fuel func k1) as [[K2 R2]| |]; simpl.
        -- destruct IH as (s' & Hrun & Hh & HK & Hfr & Hcl);
             [simpl in Hfuel0; lia|].
           exists s'. split; [done|]. split; [congruence|].
           assert (Hfk : f ∉ k1) by (intros Hin; by apply Hf, Hsub1).
           split; [|split].
           ++ split; [done|]. by rewrite Hfr.
           ++ intros a Ha. rewrite Hfr by set_solver. apply Hfr1. set_solver.
           ++ rewrite Hcl, Hcl1, <- app_assoc. by destruct clean.
        -- apply IH. simpl in Hfuel0. lia.
        -- destruct IH as [Hrun Hlt]; [simpl in Hfuel0; lia|].
           split; [done|]. simpl. lia.
      * rewrite Hscan; [done|simpl in Hfuel0; lia].
      * destruct Hscan. simpl in Hfuel0. lia.
Qed.

(** [LIST_UNIQUE] on a well-formed list does what [unique_list] says. *)
Lemma LIST_UNIQUE_spec (clean : bool) (func : addr → addr → Z) (s : state)
  (list : handle) (L : elements) (fuel : nat) :
  is_list s list L → (length L ≤ fuel)%nat →
  match unique_list fuel func L with
  | Done (K, R) =>
      ∃ s', LIST_UNIQUE fuel clean func s list = Done s' ∧
            is_list s' list K ∧
            cleaned s' = cleaned s ++ (if clean then R else [])
  | Fault => LIST_UNIQUE fuel clean func s list = Fault
  | Timeout => False
  end.
Proof.
  intros HL Hfuel. unfold is_list in HL.
  pose proof (unique_loop_spec clean func fuel fuel L s _ HL Hfuel) as Hloop.
  unfold LIST_UNIQUE.
  destruct (unique_list fuel func L) as [[K R]| |].
  - destruct Hloop as (s' & Hrun & Hh & HK & _ & Hcl).
    exists s'. split; [done|]. split; [|done].
    unfold is_list, _LIST_FST in *. by rewrite Hh.
  - done.
  - lia.
Qed.

(** A chain without two elements that compare equal is left as it is. *)
Lemma unique_scan_list_distinct func (f : addr) (l : elements) :
  (∀ e, e ∈ l → func f e ≠ 0) → unique_scan_list func f l = Done (l, []).
Proof.
  induction l as [|e l IH]; intros Hne; [done|].
  cbn [unique_scan_list].
  destruct (Z.eqb_spec (func f e) 0) as [Heq|_];
    [exfalso; apply (Hne e); [set_solver|done]|].
  rewrite IH; [done|]. intros e' He'. apply Hne. set_solver.
Qed.

Lemma unique_list_distinct func (L : elements) :
  ∀ fuel : nat,
    StronglySorted (λ a b, func a b ≠ 0) L → (length L ≤ fuel)%nat →
    unique_list fuel func L = Done (L, []).
Proof.
  induction L as [|f L IH]; intros fuel Hd Hfuel; [by destruct fuel|].
  destruct fuel as [|fuel]; [simpl in Hfuel; lia|].
  apply StronglySorted_inv in Hd as [HdL Hf].
  cbn [unique_list]. rewrite unique_scan_list_distinct.
  - simpl. rewrite IH; [done|done|]. simpl in Hfuel. lia.
  - intros e He. rewrite Forall_forall in Hf. by apply Hf.
Qed.

(** X26: on a well-formed list in which no two elements compare equal,
    [unique] returns, leaves the chain as it is and invokes [clean] on
    nothing. *)
Lemma LIST_UNIQUE_distinct (clean : bool) (func : addr → addr → Z) (s : state)
  (list : handle) (L : elements) (fuel : nat) :
  is_list s list L → (length L ≤ fuel)%nat →
  StronglySorted (λ a b, func a b ≠ 0) L →
  ∃ s', LIST_UNIQUE fuel clean func s list = Done s' ∧
        is_list s' list L ∧ cleaned s' = cleaned s.
Proof.
  intros HL Hfuel Hd.
  pose proof (LIST_UNIQUE_spec clean func s list L fuel HL Hfuel) as Hspec.
  rewrite unique_list_distinct in Hspec by done.
  destruct Hspec as (s' & Hrun & HL' & Hcl).
  exists s'. split; [done|]. split; [done|].
  rewrite Hcl. destruct clean; by rewrite app_nil_r.
Qed.

Lemma LIST_UNIQUE_distinct_witness :
  let s := push_all empty_state 0%nat [11; 21; 31]%positive in
  ∃ s', LIST_UNIQUE 3 true cmp_key s 0%nat = Done s' ∧
        is_list s' 0%nat [11; 21; 31]%positive ∧ cleaned s' = cleaned s.
Proof.
  intros s.
  apply (LIST_UNIQUE_distinct true cmp_key s 0%nat [11; 21; 31]%positive 3).
  - unfold is_list, chain. simpl. repeat split; reflexivity.
  - simpl. lia.
  - repeat constructor; vm_compute; discriminate.
Defined.

(** C4: [unique] does not leave one representative per class.  On the chain
    11, 12, 13 of three elements that compare equal it removes 12 only and
    leaves 11, 13; on the chain 11, 12 it removes 12 and then reads the link
    of [NULL]. *)
Theorem unique_misses_duplicates :
  (let s := push_all empty_state 0%nat [11; 12; 13]%positive in
   is_list s 0%nat [11; 12; 13]%positive ∧
   cmp_key 11 13 = 0 ∧
   ∃ s', LIST_UNIQUE 3 true cmp_key s 0%nat = Done s' ∧
         is_list s' 0%nat [11; 13]%positive ∧
         cleaned s' = [12]%positive) ∧
  (let s := push_all empty_state 0%nat [11; 12]%positive in
   is_list s 0%nat [11; 12]%positive ∧
   ∀ fuel, LIST_UNIQUE (S fuel) true cmp_key s 0%nat = Fault).
Proof.
  split; intros s.
  - split; [unfold is_list, chain; simpl; repeat split; reflexivity|].
    split; [reflexivity|].
    eexists. split; [reflexivity|].
    split; [unfold is_list, chain; simpl; repeat split; reflexivity|].
    reflexivity.
  - split; [unfold is_list, chain; simpl; repeat split; reflexivity|].
    intros [|fuel]; reflexivity.
Qed.

(** * The sort *)

(** ** Merging sequences *)

Section merge_facts.
Variable func : addr → addr → Z.

Lemma merge_nil_l (B : elements) : merge func [] B = B.
Proof. by destruct B. Qed.

Lemma merge_nil_r (A : elements) : merge func A [] = A.
Proof. by destruct A. Qed.

Lemma merge_cons (a b : addr) (A B : elements) :
  merge func (a :: A) (b :: B) =
  if func a b <? 0 then a :: merge func A (b :: B)
  else b :: merge func (a :: A) B.
Proof. done. Qed.

Lemma merge_perm (A B : elements) : merge func A B ≡ₚ A ++ B.
Proof.
  revert B. induction A as [|a A IHA]; intros B.
  - by rewrite merge_nil_l.
  - induction B as [|b B IHB].
    + by rewrite merge_nil_r, app_nil_r.
    + rewrite merge_cons. destruct (func a b <? 0).
      * by rewrite IHA.
      * rewrite IHB. by rewrite <- Permutation_middle.
Qed.

Lemma merge_length (A B : elements) :
  length (merge func A B) = (length A + length B)%nat.
Proof. by rewrite merge_perm, length_app. Qed.

Lemma merge_pairs_perm (Rs : list elements) :
  concat (merge_pairs func Rs) ≡ₚ concat Rs.
Proof.
  assert (H : ∀ Rs,
    concat (merge_pairs func Rs) ≡ₚ concat Rs ∧
    ∀ A, concat (merge_pairs func (A :: Rs)) ≡ₚ concat (A :: Rs)).
  { clear Rs. induction Rs as [|B Rs [IH1 IH2]]; [done|].
    split; [apply IH2|]. intros A. simpl.
    by rewrite merge_perm, IH1, app_assoc. }
  apply H.
Qed.

Lemma merge_pairs_length (Rs : list elements) :
  length (merge_pairs func Rs) = Nat.div2 (S (length Rs)).
Proof.
  assert (H : ∀ Rs,
    length (merge_pairs func Rs) = Nat.div2 (S (length Rs)) ∧
    ∀ A, length (merge_pairs func (A :: Rs)) =
         Nat.div2 (S (length (A :: Rs)))).
  { clear Rs. induction Rs as [|B Rs [IH1 IH2]]; [done|].
    split; [apply IH2|]. intros A. simpl. by rewrite IH1. }
  apply H.
Qed.

Lemma merge_pairs_runs_ok (g : nat) (Rs : list elements) :
  runs_ok g Rs → runs_ok (2 * g) (merge_pairs func Rs).
Proof.
  assert (H : ∀ Rs,
    (runs_ok g Rs → runs_ok (2 * g) (merge_pairs func Rs)) ∧
    ∀ A, runs_ok g (A :: Rs) →
         runs_ok (2 * g) (merge_pairs func (A :: Rs))).
  { clear Rs. induction Rs as [|B Rs [IH1 IH2]].
    - split; [done|]. intros A. simpl. lia.
    - split; [apply IH2|]. intros A [HA HB].
      change (merge_pairs func (A :: B :: Rs))
        with (merge func A B :: merge_pairs func Rs).
      destruct Rs as [|C Rs].
      + simpl in *. rewrite merge_length. lia.
      + destruct HB as [HB HC]. specialize (IH1 HC).
        destruct (merge_pairs func (C :: Rs)) eqn:Hmp.
        * destruct Rs; simpl in Hmp; discriminate.
        * split; [rewrite merge_length; lia|done]. }
  apply H.
Qed.
(** Merging runs that are already in strict order, one after the other,
    changes nothing. *)
Lemma merge_increasing (A B : elements) :
  (∀ a b, a ∈ A → b ∈ B → func a b < 0) → merge func A B = A ++ B.
Proof.
  revert B. induction A as [|a A IH]; intros B Hlt; [by rewrite merge_nil_l|].
  destruct B as [|b B]; [by rewrite merge_nil_r, app_nil_r|].
  rewrite merge_cons.
  destruct (Z.ltb_spec (func a b) 0) as [_|Hge].
  - simpl. f_equal. apply IH. intros a' b' Ha' Hb'. apply Hlt; set_solver.
  - assert (func a b < 0); [apply Hlt; set_solver|lia].
Qed.

Lemma merge_pairs_increasing (Rs : list elements) :
  StronglySorted (λ a b, func a b < 0) (concat Rs) →
  concat (merge_pairs func Rs) = concat Rs.
Proof.
  assert (H : ∀ Rs,
    (StronglySorted (λ a b, func a b < 0) (concat Rs) →
     concat (merge_pairs func Rs) = concat Rs) ∧
    ∀ A, StronglySorted (λ a b, func a b < 0) (concat (A :: Rs)) →
         concat (merge_pairs func (A :: Rs)) = concat (A :: Rs)).
  { clear Rs. induction Rs as [|B Rs [IH1 IH2]]; [done|].
    split; [apply IH2|]. intros A Hs. simpl in Hs |- *.
    rewrite IH1, merge_increasing, <- app_assoc; [done| |].
    - intros a b Ha Hb.
      apply (StronglySorted_app_1_elem_of (λ a b, func a b < 0)
               A (B ++ concat Rs) a b); set_solver.
    - by do 2 apply StronglySorted_app_1_r in Hs. }
  apply H.
Qed.
End merge_facts.

Section merge_sorted.
Variable func : addr → addr → Z.
Hypothesis Hflip : ∀ a b, 0 ≤ func a b → func b a ≤ 0.

Let precedes (a b : addr) : Prop := func a b ≤ 0.

Lemma HdRel_merge (x : addr) (A B : elements) :
  HdRel precedes x A → HdRel precedes x B →
  HdRel precedes x (merge func A B).
Proof.
  intros HA HB. destruct A as [|a A]; [by rewrite merge_nil_l|].
  destruct B as [|b B]; [by rewrite merge_nil_r|].
  rewrite merge_cons. inversion HA; inversion HB; subst.
  destruct (func a b <? 0); by constructor.
Qed.

Lemma merge_Sorted (A B : elements) :
  Sorted precedes A → Sorted precedes B →
  Sorted precedes (merge func A B).
Proof.
  revert B. induction A as [|a A IHA]; intros B HA HB.
  - by rewrite merge_nil_l.
  - induction B as [|b B IHB]; [by rewrite merge_nil_r|].
    rewrite merge_cons.
    apply Sorted_inv in HA as HA'. destruct HA' as [HA1 HA2].
    apply Sorted_inv in HB as HB'. destruct HB' as [HB1 HB2].
    destruct (Z.ltb_spec (func a b) 0) as [Hlt|Hge].
    + constructor; [by apply IHA|].
      apply HdRel_merge; [done|]. constructor. unfold precedes. lia.
    + constructor; [by apply IHB|].
      apply HdRel_merge; [|done]. constructor. by apply Hflip.
Qed.

Lemma merge_pairs_Sorted (Rs : list elements) :
  Forall (Sorted precedes) Rs →
  Forall (Sorted precedes) (merge_pairs func Rs).
Proof.
  assert (H : ∀ Rs,
    (Forall (Sorted precedes) Rs →
     Forall (Sorted precedes) (merge_pairs func Rs)) ∧
    ∀ A, Forall (Sorted precedes) (A :: Rs) →
         Forall (Sorted precedes) (merge_pairs func (A :: Rs))).
  { clear Rs. induction Rs as [|B Rs [IH1 IH2]]; [done|].
    split; [apply IH2|]. intros A HAB.
    apply Forall_cons in HAB as [HA HB].
    apply Forall_cons in HB as [HB HRs].
    simpl. constructor; [by apply merge_Sorted | by apply IH1]. }
  apply H.
Qed.

Lemma Sorted_nondecreasing (l : elements) :
  Sorted precedes l → nondecreasing func l.
Proof.
  induction 1 as [|a l Hl IH Hhd]; intros i x y Hx Hy; [done|].
  destruct i as [|i]; simpl in Hx, Hy.
  - simplify_eq. destruct l as [|b l]; simplify_eq/=.
    by inversion Hhd.
  - by eapply IH.
Qed.
End merge_sorted.

(** ** The loops of [LIST_SORT] on a well-formed chain *)

Lemma sort_split_spec (s : state) (gl : Z) (L : elements) :
  ∀ (fuel : nat) (r : ptr) (ls : Z),
    chain (links s) r L → 0 ≤ ls ≤ gl → (length L ≤ fuel)%nat →
    let k := Z.to_nat (gl - ls) in
    ∃ r', sort_split fuel s gl r ls
            = Done (r', ls + Z.of_nat (length (take k L))) ∧
          lseg (links s) r (take k L) r' ∧
          chain (links s) r' (drop k L).
Proof.
  induction L as [|e L IH]; intros fuel r ls Hch Hls Hfuel k.
  - unfold chain in Hch. simpl in Hch. subst r. exists None.
    rewrite take_nil, drop_nil. destruct fuel; simpl;
      (split; [f_equal; f_equal; lia|done]).
  - destruct Hch as [-> Hch].
    destruct (Z.ltb_spec ls gl) as [Hlt|Hge].
    + destruct fuel as [|f]; [simpl in Hfuel; lia|].
      simpl. destruct (Z.ltb_spec ls gl) as [_|?]; [|lia].
      destruct (IH f (links s e) (ls + 1)) as (r' & Hr' & Hseg & Hrest);
        [done|lia|simpl in Hfuel; lia|].
      assert (Hk : k = S (Z.to_nat (gl - (ls + 1)))) by (unfold k; lia).
      rewrite Hk. simpl. exists r'. rewrite Hr'.
      split; [f_equal; f_equal; lia|done].
    + assert (Hk : k = 0%nat) by (unfold k; lia).
      rewrite Hk. simpl. exists (Some e).
      destruct fuel; simpl; (destruct (Z.ltb_spec ls gl) as [?|_]; [lia|]);
        (split; [f_equal; f_equal; lia|done]).
Qed.

(** Emitting [n], which is not among the emitted elements yet. *)
Lemma sort_emit_spec (s : state) (v : merge_vars) (n : addr) (out : elements) :
  out_ok (links s) (v_x v) (v_t v) out → NoDup out → n ∉ out →
  ∃ s' x',
    sort_emit s v (Some n)
      = Done (s', MergeVars (v_l v) (v_r v) (v_ls v) (v_rs v) (Some n) x') ∧
    heads s' = heads s ∧ calls s' = calls s ∧
    out_ok (links s') x' (Some n) (out ++ [n]) ∧
    (∀ e, e ∉ out → links s' e = links s e).
Proof.
  intros Hout Hdup Hn. unfold sort_emit, out_ok in *.
  destruct (v_t v) as [tl|]; simpl.
  - destruct Hout as (init & -> & Hseg).
    eexists _, _. split; [done|]. simpl. repeat split.
    + exists (init ++ [tl]). split; [done|]. apply lseg_snoc.
      split; [|by rewrite fn_lookup_insert].
      apply lseg_insert; [|done].
      apply NoDup_app in Hdup as (_ & Hdisj & _). intros Hin.
      apply (Hdisj tl Hin). set_solver.
    + intros e He. apply fn_lookup_insert_ne. set_solver.
  - subst out. eexists _, _. split; [done|]. repeat split.
    exists []. done.
Qed.

(** A merge step that takes the head of the left run. *)
Lemma sort_step_left func (s : state) (v : merge_vars) (out : elements)
  (a : addr) (A RC : elements) :
  merge_inv s v out (a :: A) RC →
  sort_left_first func v = Done true →
  ∃ s' v',
    sort_step func s v = Done (s', v') ∧
    heads s' = heads s ∧ calls s' = calls s ∧
    merge_inv s' v' (out ++ [a]) A RC ∧ v_rs v' = v_rs v.
Proof.
  intros ([qa [Hl HA]] & Hls & HRC & Hrs & Hout & Hdup) Hleft.
  unfold sort_step, sort_pick. rewrite Hleft.
  destruct (Z.eqb_spec (v_ls v) 0) as [Hz|_];
    [rewrite Hls in Hz; simpl in Hz; lia|].
  rewrite Hl. simpl.
  set (v1 := MergeVars (links s a) (v_r v) (v_ls v - 1) (v_rs v) (v_t v) (v_x v)).
  destruct (sort_emit_spec s v1 a out) as (s' & x' & -> & Hh & Hc & Hout' & Hfr).
  - done.
  - by apply NoDup_app in Hdup as (? & _ & _).
  - apply NoDup_app in Hdup as (_ & Hdisj & _). intros Hin.
    apply (Hdisj a Hin). set_solver.
  - eexists _, _. split; [done|]. split; [done|]. split; [done|].
    split; [|done]. unfold merge_inv. simpl.
    assert (Hdup' : NoDup ((out ++ [a]) ++ A ++ RC)).
    { by rewrite <- app_assoc. }
    apply NoDup_app in Hdup' as Hparts. destruct Hparts as (_ & Hdisj & _).
    assert (Hext : ∀ l q p, (∀ e, e ∈ l → e ∈ A ++ RC) →
              lseg (links s) p l q → lseg (links s') p l q).
    { intros l q p Hsub. apply lseg_ext. intros e He. apply Hfr.
      intros Hin. apply (Hdisj e); [set_solver|by apply Hsub]. }
    repeat split.
    + exists qa. apply Hext; [set_solver|done].
    + rewrite Hls. simpl length. lia.
    + apply Hext; [set_solver|done].
    + done.
    + done.
    + done.
Qed.

(** A merge step that takes the head of the right run. *)
Lemma sort_step_right func (s : state) (v : merge_vars) (out A : elements)
  (b : addr) (RC : elements) :
  merge_inv s v out A (b :: RC) →
  0 < v_rs v →
  A = [] ∨ sort_left_first func v = Done false →
  ∃ s' v',
    sort_step func s v = Done (s', v') ∧
    heads s' = heads s ∧ calls s' = calls s ∧
    merge_inv s' v' (out ++ [b]) A RC ∧ v_rs v' = v_rs v - 1.
Proof.
  intros ([qa HA] & Hls & [Hr HRC] & Hrs & Hout & Hdup) Hpos Hright.
  assert (Hpick : sort_pick func s v = Done (Some b,
    MergeVars (v_l v) (links s b) (v_ls v) (v_rs v - 1) (v_t v) (v_x v))).
  { unfold sort_pick. rewrite Hr. simpl.
    destruct (Z.eqb_spec (v_ls v) 0) as [Hz|Hnz]; [done|].
    destruct Hright as [-> | ->]; [simpl in Hls; lia|done]. }
  unfold sort_step. rewrite Hpick. simpl.
  set (v1 := MergeVars (v_l v) (links s b) (v_ls v) (v_rs v - 1) (v_t v) (v_x v)).
  assert (Hdup' : NoDup ((out ++ [b]) ++ A ++ RC)).
  { rewrite <- app_assoc. simpl.
    by rewrite (Permutation_middle A RC b). }
  destruct (sort_emit_spec s v1 b out) as (s' & x' & -> & Hh & Hc & Hout' & Hfr).
  - done.
  - by apply NoDup_app in Hdup as (? & _ & _).
  - apply NoDup_app in Hdup as (_ & Hdisj & _). intros Hin.
    apply (Hdisj b Hin). set_solver.
  - eexists _, _. split; [done|]. split; [done|]. split; [done|].
    split; [|done]. unfold merge_inv. simpl.
    apply NoDup_app in Hdup' as Hparts. destruct Hparts as (_ & Hdisj & _).
    assert (Hext : ∀ l q p, (∀ e, e ∈ l → e ∈ A ++ RC) →
              lseg (links s) p l q → lseg (links s') p l q).
    { intros l q p Hsub. apply lseg_ext. intros e He. apply Hfr.
      intros Hin. apply (Hdisj e); [set_solver|by apply Hsub]. }
    repeat split.
    + exists qa. apply Hext; [set_solver|done].
    + done.
    + apply Hext; [set_solver|done].
    + lia.
    + done.
    + done.
Qed.

(** The merge loop emits [merge func A B], where [B] is the right run. *)
Lemma sort_merge_spec func :
  ∀ (fuel : nat) (s : state) (v : merge_vars) (out A RC : elements),
    merge_inv s v out A RC →
    (length A + length (take (Z.to_nat (v_rs v)) RC) ≤ fuel)%nat →
    ∃ s' v',
      sort_merge fuel func s v = Done (s', v') ∧
      heads s' = heads s ∧ calls s' = calls s ∧
      merge_inv s' v'
        (out ++ merge func A (take (Z.to_nat (v_rs v)) RC)) []
        (drop (Z.to_nat (v_rs v)) RC).
Proof.
  assert (Hstop : ∀ fuel s v out RC,
    merge_inv s v out [] RC → take (Z.to_nat (v_rs v)) RC = [] →
    ∃ s' v',
      sort_merge fuel func s v = Done (s', v') ∧
      heads s' = heads s ∧ calls s' = calls s ∧
      merge_inv s' v' (out ++ merge func [] []) [] (drop (Z.to_nat (v_rs v)) RC)).
  { intros fuel s v out RC Hinv Htake. exists s, v.
    pose proof Hinv as (_ & Hls & HRC & Hrs & _).
    assert (Hcond : (0 <? v_ls v) || (0 <? v_rs v) && bool_decide (v_r v ≠ None)
                    = false).
    { rewrite Hls. simpl.
      destruct (Z.ltb_spec 0 (v_rs v)) as [Hpos|_]; [|done].
      destruct RC as [|b RC]; [by rewrite HRC|].
      replace (Z.to_nat (v_rs v)) with (S (Z.to_nat (v_rs v - 1))) in Htake
        by lia. done. }
    split; [by destruct fuel; simpl; rewrite Hcond|].
    split; [done|]. split; [done|].
    rewrite app_nil_r.
    rewrite <- (take_drop (Z.to_nat (v_rs v)) RC) in Hinv at 1.
    by rewrite Htake in Hinv. }
  induction fuel as [|k IH]; intros s v out A RC Hinv Hfuel.
  - destruct A as [|a A]; [|simpl in Hfuel; lia].
    destruct (take (Z.to_nat (v_rs v)) RC) eqn:Htake; [|simpl in Hfuel; lia].
    by apply Hstop.
  - pose proof Hinv as (_ & Hls & HRC & Hrs & _).
    set (B := take (Z.to_nat (v_rs v)) RC) in *.
    (* what is left of the right run *)
    assert (HB : B = [] ∧ (v_rs v = 0 ∨ v_r v = None) ∨
                 ∃ b RC', RC = b :: RC' ∧ 0 < v_rs v ∧ v_r v = Some b ∧
                          B = b :: take (Z.to_nat (v_rs v - 1)) RC').
    { destruct (Z.ltb_spec 0 (v_rs v)) as [Hpos|Hz].
      - destruct RC as [|b RC'].
        + left. split; [apply take_nil|right; exact HRC].
        + right. exists b, RC'. destruct HRC as [Hr _].
          repeat split; try done. unfold B.
          by replace (Z.to_nat (v_rs v)) with (S (Z.to_nat (v_rs v - 1))) by lia.
      - left. split; [|left; lia]. unfold B.
        by replace (Z.to_nat (v_rs v)) with 0%nat by lia. }
    destruct A as [|a A].
    + destruct HB as [[HB _]|(b & RC' & -> & Hpos & Hr & HB)].
      { rewrite HB. by apply Hstop. }
      destruct (sort_step_right func s v out [] b RC' Hinv Hpos)
        as (s1 & v1 & Hstep & Hh1 & Hc1 & Hinv1 & Hrs1); [by left|].
      destruct (IH s1 v1 (out ++ [b]) [] RC' Hinv1) as (s' & v' & Hrun & Hh & Hc & Hinv').
      { rewrite Hrs1. rewrite HB in Hfuel. simpl in Hfuel |- *. lia. }
      exists s', v'. split.
      { simpl. rewrite Hls, Hr. simpl.
        destruct (Z.ltb_spec 0 (v_rs v)) as [_|?]; [|lia]. simpl.
        by rewrite Hstep. }
      split; [congruence|]. split; [congruence|].
      rewrite HB, merge_nil_l. rewrite Hrs1, merge_nil_l in Hinv'.
      rewrite <- app_assoc in Hinv'. simpl in Hinv'.
      by replace (Z.to_nat (v_rs v)) with (S (Z.to_nat (v_rs v - 1))) by lia.
    + assert (Hcond : (0 <? v_ls v) || (0 <? v_rs v) && bool_decide (v_r v ≠ None)
                      = true).
      { rewrite Hls. simpl length.
        by destruct (Z.ltb_spec 0 (Z.of_nat (S (length A)))) as [_|?]; [|lia]. }
      pose proof Hinv as ([qa [Hl _]] & _).
      assert (Hleft_case :
        sort_left_first func v = Done true →
        merge func (a :: A) B = a :: merge func A B →
        ∃ s' v',
          sort_merge (S k) func s v = Done (s', v') ∧
          heads s' = heads s ∧ calls s' = calls s ∧
          merge_inv s' v' (out ++ merge func (a :: A) B) []
            (drop (Z.to_nat (v_rs v)) RC)).
      { intros Hleft Hmerge.
        destruct (sort_step_left func s v out a A RC Hinv Hleft)
          as (s1 & v1 & Hstep & Hh1 & Hc1 & Hinv1 & Hrs1).
        destruct (IH s1 v1 (out ++ [a]) A RC Hinv1)
          as (s' & v' & Hrun & Hh & Hc & Hinv').
        { rewrite Hrs1. fold B. simpl in Hfuel. lia. }
        exists s', v'. split; [simpl; by rewrite Hcond, Hstep|].
        split; [congruence|]. split; [congruence|].
        rewrite Hrs1 in Hinv'. fold B in Hinv'. rewrite Hmerge.
        by rewrite <- app_assoc in Hinv'. }
      destruct HB as [[HB Hwhy]|(b & RC' & -> & Hpos & Hr & HB)].
      * apply Hleft_case; [|by rewrite HB, !merge_nil_r].
        unfold sort_left_first. destruct Hwhy as [->| ->]; [done|].
        by destruct (v_rs v =? 0).
      * assert (Hfirst : sort_left_first func v = Done (func a b <? 0)).
        { unfold sort_left_first. rewrite Hl, Hr.
          by destruct (Z.eqb_spec (v_rs v) 0) as [?|_]; [lia|]. }
        destruct (Z.ltb_spec (func a b) 0) as [Hlt|Hge].
        -- apply Hleft_case; [by rewrite Hfirst|].
           rewrite HB, merge_cons.
           by destruct (Z.ltb_spec (func a b) 0) as [_|?]; [|lia].
        -- destruct (sort_step_right func s v out (a :: A) b RC' Hinv Hpos)
             as (s1 & v1 & Hstep & Hh1 & Hc1 & Hinv1 & Hrs1); [by right|].
           destruct (IH s1 v1 (out ++ [b]) (a :: A) RC' Hinv1)
             as (s' & v' & Hrun & Hh & Hc & Hinv').
           { rewrite Hrs1. rewrite HB in Hfuel. simpl in Hfuel |- *. lia. }
           exists s', v'. split; [simpl; by rewrite Hcond, Hstep|].
           split; [congruence|]. split; [congruence|].
           rewrite HB, merge_cons.
           destruct (Z.ltb_spec (func a b) 0) as [?|_]; [lia|].
           rewrite Hrs1 in Hinv'. rewrite <- app_assoc in Hinv'.
           simpl in Hinv'.
           by replace (Z.to_nat (v_rs v)) with (S (Z.to_nat (v_rs v - 1)))
             by lia.
Qed.

(** ** The merge step *)

Section merge_ties.
Variable func : addr → addr → Z.
Hypothesis Hcmp : comparator func.

(** An element of the left run is not emitted while the right run, which
    is in order, still holds an element that compares equal to it. *)
Lemma merge_ties_right_first (A B : elements) :
  Sorted (λ x y, func x y ≤ 0) B →
  ∀ a b, a ∈ A → b ∈ B → func a b = 0 →
  ∃ l1 l2 l3, merge func A B = l1 ++ b :: l2 ++ a :: l3.
Proof.
  intros HB. apply Sorted_StronglySorted in HB.
  2: { intros x y z Hxy Hyz. by eapply (cmp_trans _ Hcmp). }
  revert B HB. induction A as [|x A IHA]; intros B HB a b Ha Hb Hab.
  { by apply elem_of_nil in Ha. }
  induction B as [|y B IHB]; [by apply elem_of_nil in Hb|].
  apply StronglySorted_inv in HB as HB'. destruct HB' as [HB1 Hy].
  rewrite merge_cons. destruct (Z.ltb_spec (func x y) 0) as [Hlt|Hge].
  - assert (Ha' : a ∈ A).
    { apply elem_of_cons in Ha as [-> | Ha]; [|done]. exfalso.
      apply elem_of_cons in Hb as [-> | Hb]; [lia|].
      rewrite Forall_forall in Hy. pose proof (Hy b Hb) as Hyb.
      assert (Hbx : func b x ≤ 0).
      { destruct (Z.le_gt_cases (func b x) 0) as [?|Hpos]; [done|].
        apply (cmp_flip _ Hcmp) in Hpos. lia. }
      pose proof (cmp_trans _ Hcmp y b x Hyb Hbx) as Hyx.
      apply (cmp_flip _ Hcmp) in Hlt. lia. }
    destruct (IHA (y :: B) HB a b Ha' Hb Hab) as (l1 & l2 & l3 & Heq).
    exists (x :: l1), l2, l3. by rewrite Heq.
  - apply elem_of_cons in Hb as [-> | Hb].
    + assert (Hin : a ∈ merge func (x :: A) B).
      { rewrite merge_perm. set_solver. }
      apply list_elem_of_split in Hin as (l2 & l3 & Heq).
      exists [], l2, l3. by rewrite Heq.
    + destruct (IHB HB1 Hb) as (l1 & l2 & l3 & Heq).
      exists (y :: l1), l2, l3. by rewrite Heq.
Qed.

End merge_ties.

(** C2: in a merge step with a left-run element [a] and a right-run element
    [b] both available, the element emitted is [a] exactly when
    [func a b < 0]; otherwise, also when [func a b = 0], it is [b].  Emitted
    means: the element becomes the new tail [t], it is hung behind the old
    tail, or made the head [x] of the merged chain when there is no tail
    yet, and no other link, no head and no record changes; the run that
    gave the element steps past it and its counter drops by one.

    Hence the order of compare-equal elements in a merged run: the merge
    loop, started with [A] left of the left run and [B], in order, left of
    the right run, ends and appends to the emitted chain a rearrangement
    [M] of [A] and [B] in which every element of [B] stands before every
    element of [A] that compares equal to it. *)
Theorem merge_step_tie_break (func : addr → addr → Z) :
  (∀ (s : state) (v : merge_vars) (a b : addr),
     0 < v_ls v → 0 < v_rs v → v_l v = Some a → v_r v = Some b →
     ∃ s' v',
       sort_step func s v = Done (s', v') ∧
       (func a b < 0 →
          v_t v' = Some a ∧ v_l v' = links s a ∧ v_r v' = Some b ∧
          v_ls v' = v_ls v - 1 ∧ v_rs v' = v_rs v) ∧
       (0 ≤ func a b →
          v_t v' = Some b ∧ v_l v' = Some a ∧ v_r v' = links s b ∧
          v_ls v' = v_ls v ∧ v_rs v' = v_rs v - 1) ∧
       match v_t v with
       | Some t0 =>
           links s' = <[t0 := v_t v']> (links s) ∧ v_x v' = v_x v
       | None => links s' = links s ∧ v_x v' = v_t v'
       end ∧
       heads s' = heads s ∧ calls s' = calls s) ∧
  (∀ (fuel : nat) (s : state) (v : merge_vars) (out A RC : elements),
     let B := take (Z.to_nat (v_rs v)) RC in
     comparator func → merge_inv s v out A RC →
     Sorted (λ x y, func x y ≤ 0) B →
     (length A + length B ≤ fuel)%nat →
     ∃ s' v' M,
       sort_merge fuel func s v = Done (s', v') ∧
       out_ok (links s') (v_x v') (v_t v') (out ++ M) ∧
       M ≡ₚ A ++ B ∧
       ∀ a b, a ∈ A → b ∈ B → func a b = 0 →
              ∃ l1 l2 l3, M = l1 ++ b :: l2 ++ a :: l3).
Proof.
  split.
  - intros s v a b Hls Hrs Hl Hr. unfold sort_step, sort_pick, sort_left_first.
    rewrite Hl, Hr.
    destruct (Z.eqb_spec (v_ls v) 0) as [?|_]; [lia|].
    destruct (Z.eqb_spec (v_rs v) 0) as [?|_]; [lia|].
    simpl. destruct (Z.ltb_spec (func a b) 0) as [Hlt|Hge]; simpl.
    + unfold sort_emit; simpl. destruct (v_t v) as [t0|]; simpl;
        eexists _, _; (split; [done|]); simpl;
        (split; [intros; done|]); (split; [intros; lia|]); done.
    + unfold sort_emit; simpl. destruct (v_t v) as [t0|]; simpl;
        eexists _, _; (split; [done|]); simpl;
        (split; [intros; lia|]); (split; [intros; done|]); done.
  - intros fuel s v out A RC B Hcmp Hinv HB Hfuel.
    destruct (sort_merge_spec func fuel s v out A RC Hinv Hfuel)
      as (s' & v' & Hrun & _ & _ & Hinv').
    exists s', v', (merge func A B). split; [done|].
    split; [by destruct Hinv' as (_ & _ & _ & _ & Hout & _)|].
    split; [apply merge_perm|].
    intros a b Ha Hb Hab. by apply merge_ties_right_first.
Qed.

Lemma merge_step_tie_break_witness :
  let s0 := push_all empty_state 0%nat [11; 12; 13; 14]%positive in
  let s1 := {| heads := heads s0;
               links := <[12%positive := Some 11%positive]> (links s0);
               calls := calls s0 |} in
  (∃ s' v',
     sort_step cmp_key s1
       (MergeVars (Some 13%positive) (Some 14%positive) 1 1
          (Some 11%positive) (Some 12%positive))
     = Done (s', v') ∧
     v_t v' = Some 14%positive ∧ v_x v' = Some 12%positive ∧
     links s' 11%positive = Some 14%positive ∧
     v_l v' = Some 13%positive ∧ v_r v' = None) ∧
  (∃ s' v' M,
     sort_merge 2 cmp_key s0
       (MergeVars (Some 11%positive) (Some 12%positive) 1 1 None None)
     = Done (s', v') ∧
     out_ok (links s') (v_x v') (v_t v') M ∧
     ∃ l1 l2 l3, M = l1 ++ 12%positive :: l2 ++ 11%positive :: l3).
Proof.
  intros s0 s1.
  destruct (merge_step_tie_break cmp_key) as [Hstep Hloop]. split.
  - destruct (Hstep s1
      (MergeVars (Some 13%positive) (Some 14%positive) 1 1
         (Some 11%positive) (Some 12%positive)) 13%positive 14%positive)
      as (s' & v' & Hrun & _ & Hge & Hemit & _);
      [simpl; lia | simpl; lia | reflexivity | reflexivity |].
    destruct Hge as (Ht & Hl & Hr & _); [vm_compute; discriminate|].
    simpl in Hemit. destruct Hemit as [Hlinks Hx].
    exists s', v'. split; [exact Hrun|]. split; [exact Ht|].
    split; [exact Hx|]. split; [by rewrite Hlinks, Ht|].
    split; [exact Hl | exact Hr].
  - destruct (Hloop 2%nat s0
      (MergeVars (Some 11%positive) (Some 12%positive) 1 1 None None)
      [] [11%positive] [12; 13; 14]%positive cmp_key_comparator)
      as (s' & v' & M & Hrun & Hout & _ & Hties).
    + unfold merge_inv. simpl. split; [by exists (Some 12%positive)|].
      split; [reflexivity|]. split; [unfold chain; simpl; by repeat split|].
      split; [lia|]. split; [reflexivity|].
      apply (bool_decide_unpack _). vm_compute. reflexivity.
    + simpl. repeat constructor.
    + simpl. lia.
    + exists s', v', M. split; [exact Hrun|]. split; [exact Hout|].
      apply (Hties 11%positive 12%positive).
      * simpl. set_solver.
      * simpl. set_solver.
      * reflexivity.
Defined.

(** One round of the pass: split off the left run, merge it with the right
    run. *)
Lemma sort_pass_round func (g fuel0 : nat) (s : state) (l t x : ptr)
  (out L : elements) :
  chain (links s) l L → out_ok (links s) x t out → NoDup (out ++ L) →
  (length L ≤ fuel0)%nat →
  ∃ r ls s' v',
    sort_split fuel0 s (Z.of_nat g) l 0 = Done (r, ls) ∧
    sort_merge fuel0 func s (MergeVars l r ls (Z.of_nat g) t x)
      = Done (s', v') ∧
    heads s' = heads s ∧ calls s' = calls s ∧
    merge_inv s' v'
      (out ++ merge func (take g L) (take g (drop g L))) []
      (drop g (drop g L)).
Proof.
  intros Hch Hout Hdup Hfuel.
  destruct (sort_split_spec s (Z.of_nat g) L fuel0 l 0 Hch)
    as (r & Hsplit & Hseg & Hrest); [lia|done|].
  replace (Z.to_nat (Z.of_nat g - 0)) with g in * by lia.
  set (v := MergeVars l r (0 + Z.of_nat (length (take g L))) (Z.of_nat g) t x).
  assert (Hinv : merge_inv s v out (take g L) (drop g L)).
  { unfold merge_inv, v. simpl. repeat split; try done.
    - by exists r.
    - lia.
    - by rewrite take_drop. }
  destruct (sort_merge_spec func fuel0 s v out (take g L) (drop g L) Hinv)
    as (s' & v' & Hmerge & Hh & Hc & Hinv').
  { simpl. rewrite Nat2Z.id, !length_take, length_drop. lia. }
  simpl in Hinv'. rewrite Nat2Z.id in Hinv'.
  exists r, (0 + Z.of_nat (length (take g L))), s', v'. done.
Qed.

Lemma sort_pass_spec func (g fuel0 : nat) (Rs : list elements) :
  (1 ≤ g)%nat →
  ∀ (fuel : nat) (s : state) (l t x : ptr) (nm : Z) (out : elements),
    runs_ok g Rs →
    chain (links s) l (concat Rs) → out_ok (links s) x t out →
    NoDup (out ++ concat Rs) →
    (length (concat Rs) ≤ fuel0)%nat → (length Rs ≤ fuel)%nat →
    ∃ s' t' x',
      sort_pass fuel0 fuel func s (Z.of_nat g) l t x nm
        = Done (s', t', x', nm + Z.of_nat (length (merge_pairs func Rs))) ∧
      heads s' = heads s ∧ calls s' = calls s ∧
      out_ok (links s') x' t' (out ++ concat (merge_pairs func Rs)).
Proof.
  intros Hg.
  set (P := λ Rs : list elements,
    ∀ (fuel : nat) (s : state) (l t x : ptr) (nm : Z) (out : elements),
      runs_ok g Rs →
      chain (links s) l (concat Rs) → out_ok (links s) x t out →
      NoDup (out ++ concat Rs) →
      (length (concat Rs) ≤ fuel0)%nat → (length Rs ≤ fuel)%nat →
      ∃ s' t' x',
        sort_pass fuel0 fuel func s (Z.of_nat g) l t x nm
          = Done (s', t', x', nm + Z.of_nat (length (merge_pairs func Rs))) ∧
        heads s' = heads s ∧ calls s' = calls s ∧
        out_ok (links s') x' t' (out ++ concat (merge_pairs func Rs))).
  (* a round on [A :: Rs'], followed by the rest of the pass on [Rest] *)
  assert (Hround : ∀ A B Rs' Rest,
    A ≠ [] → take g (concat (A :: Rs')) = A →
    take g (drop g (concat (A :: Rs'))) = B →
    drop g (drop g (concat (A :: Rs'))) = concat Rest →
    merge_pairs func (A :: Rs') = merge func A B :: merge_pairs func Rest →
    (length Rest ≤ length Rs')%nat → (runs_ok g (A :: Rs') → runs_ok g Rest) →
    P Rest → P (A :: Rs')).
  { intros A B Rs' Rest HA HtA HtB Hdrop Hmp Hlen Hruns HP
      fuel s l t x nm out Hok Hch Hout Hdup Hfuel0 Hfuel.
    destruct (sort_pass_round func g fuel0 s l t x out _ Hch Hout Hdup Hfuel0)
      as (r & ls & s1 & v1 & Hsplit & Hmerge & Hh1 & Hc1 & Hinv1).
    rewrite HtA, HtB, Hdrop in Hinv1.
    destruct Hinv1 as (_ & _ & Hch1 & _ & Hout1 & Hdup1).
    destruct fuel as [|k]; [simpl in Hfuel; lia|].
    destruct (HP k s1 (v_r v1) (v_t v1) (v_x v1) (nm + 1)
                (out ++ merge func A B))
      as (s' & t' & x' & Hpass & Hh & Hc & Hout'); try done.
    - by apply Hruns.
    - rewrite <- Hdrop. rewrite !length_drop. lia.
    - simpl in Hfuel. lia.
    - exists s', t', x'. rewrite Hmp. split.
      + destruct l as [e|].
        * simpl. rewrite Hsplit. simpl. rewrite Hmerge. simpl.
          rewrite Hpass. f_equal. f_equal. lia.
        * apply chain_nil in Hch. destruct A; [done|].
          simpl in Hch. discriminate.
      + split; [congruence|]. split; [congruence|].
        simpl. by rewrite app_assoc. }
  assert (H : ∀ Rs, P Rs ∧ ∀ A, P (A :: Rs)).
  { clear Rs. induction Rs as [|B Rs [IH1 IH2]].
    - assert (Hnil : P []).
      { intros fuel s l t x nm out _ Hch Hout _ _ _.
        unfold chain in Hch. simpl in Hch. subst l. exists s, t, x. split.
        - destruct fuel; simpl; f_equal; f_equal; lia.
        - by rewrite app_nil_r. }
      split; [done|]. intros A fuel s l t x nm out Hok.
      assert (HA : A ≠ []) by (intros ->; simpl in Hok; lia).
      simpl in Hok.
      apply (Hround A [] [] []); simpl; try done.
      + rewrite app_nil_r. apply take_ge. lia.
      + rewrite app_nil_r. rewrite drop_ge by lia. apply take_nil.
      + rewrite app_nil_r. rewrite (drop_ge A) by lia. apply drop_nil.
      + by rewrite merge_nil_r.
    - split; [apply IH2|]. intros A fuel s l t x nm out Hok.
      pose proof Hok as [HlenA HokB].
      assert (HA : A ≠ []).
      { intros ->. simpl in HlenA. lia. }
      assert (HtB : take g (B ++ concat Rs) = B ∧
                    drop g (B ++ concat Rs) = concat Rs).
      { destruct Rs as [|C Rs]; simpl in HokB.
        - simpl. rewrite app_nil_r. rewrite take_ge, drop_ge by lia. done.
        - destruct HokB as [<- _].
          by rewrite take_app_length, drop_app_length. }
      destruct HtB as [HtB HdB].
      apply (Hround A B (B :: Rs) Rs); simpl; try done.
      + rewrite <- HlenA. by rewrite take_app_length.
      + rewrite <- HlenA at 2. by rewrite drop_app_length.
      + rewrite <- HlenA at 2. by rewrite drop_app_length.
      + lia.
      + intros [_ HB]. destruct Rs as [|C Rs]; [done|]. by destruct HB. }
  apply H.
Qed.

Lemma div2_succ_bound (n : nat) : (2 ≤ n → Nat.div2 (S n) < n)%nat.
Proof.
  intros Hn. pose proof (Nat.div2_odd (S n)) as Hodd.
  destruct (Nat.odd (S n)); unfold Nat.b2n in Hodd; lia.
Qed.

Section passes.
Variable func : addr → addr → Z.

Let precedes (a b : addr) : Prop := func a b ≤ 0.

Lemma sort_passes_spec (fuel0 : nat) :
  ∀ (fuel g : nat) (Rs : list elements) (s : state) (x : ptr),
    (1 ≤ g)%nat → concat Rs ≠ [] → runs_ok g Rs →
    chain (links s) x (concat Rs) →
    (length (concat Rs) ≤ fuel0)%nat → (length Rs ≤ fuel0)%nat →
    (length Rs ≤ fuel)%nat → (g ≤ length (concat Rs))%nat →
    ∃ s' x' gl' R,
      sort_passes fuel0 fuel func s (Z.of_nat g) x = Done (s', x', gl') ∧
      Z.of_nat g < gl' ≤ 2 * Z.of_nat (length (concat Rs)) ∧
      heads s' = heads s ∧ calls s' = calls s ∧
      chain (links s') x' R ∧ R ≡ₚ concat Rs ∧
      ((∀ a b, 0 ≤ func a b → func b a ≤ 0) →
       Forall (Sorted precedes) Rs → Sorted precedes R) ∧
      (StronglySorted (λ a b, func a b < 0) (concat Rs) → R = concat Rs).
Proof.
  induction fuel as [|k IH];
    intros g Rs s x Hg Hne Hok Hch Hf0 Hf0' Hfuel Hgn.
  { destruct Rs; [done|simpl in Hfuel; lia]. }
  pose proof (chain_NoDup _ _ _ Hch) as Hdup.
  destruct (sort_pass_spec func g fuel0 Rs Hg fuel0 s x None None 0 [])
    as (s1 & t & x1 & Hpass & Hh1 & Hc1 & Hout); try done.
  simpl in Hout.
  set (Rs' := merge_pairs func Rs) in *.
  assert (Hperm : concat Rs' ≡ₚ concat Rs) by apply merge_pairs_perm.
  assert (Hne' : concat Rs' ≠ []).
  { intros Heq. rewrite Heq in Hperm. symmetry in Hperm.
    by apply Permutation_nil_r in Hperm. }
  (* the tail of the pass gets its link cleared *)
  unfold out_ok in Hout. destruct t as [tl|]; [|done].
  destruct Hout as (init & Hinit & Hseg).
  set (s2 := {| heads := heads s1; links := <[tl := None]> (links s1);
                calls := calls s1 |}).
  assert (Hch2 : chain (links s2) x1 (concat Rs')).
  { rewrite Hinit. apply lseg_snoc. simpl.
    split; [|by rewrite fn_lookup_insert].
    apply lseg_insert; [|done].
    rewrite <- Hperm, Hinit in Hdup.
    apply NoDup_app in Hdup as (_ & Hdisj & _). intros Hin.
    apply (Hdisj tl Hin). set_solver. }
  simpl. rewrite Hpass. simpl. fold s2.
  destruct (Z.ltb_spec 1 (0 + Z.of_nat (length Rs'))) as [Hmore|Hlast].
  - destruct (IH (2 * g)%nat Rs' s2 x1)
      as (s' & x' & gl' & R & Hrun & Hgl & Hh & Hc & HchR & HpermR &
          Hsorted & Hsame);
      try done.
    + lia.
    + by apply merge_pairs_runs_ok.
    + by rewrite Hperm.
    + unfold Rs'. rewrite merge_pairs_length.
      pose proof (div2_succ_bound (length Rs)).
      destruct Rs as [|? [|? ?]]; simpl in *; lia.
    + unfold Rs' in *. rewrite merge_pairs_length in Hmore |- *.
      pose proof (div2_succ_bound (length Rs)).
      destruct Rs as [|? [|? ?]]; simpl in *; lia.
    + rewrite Hperm. clear -Hok Hmore.
      destruct Rs as [|A [|B [|C Rs]]]; simpl in Hmore; try lia.
      destruct Hok as [HA [HB _]]. simpl. rewrite !length_app. lia.
    + exists s', x', gl', R.
      replace (Z.of_nat g * 2) with (Z.of_nat (2 * g)) by lia.
      split; [done|]. split; [rewrite <- Hperm; lia|].
      split; [by rewrite Hh|]. split; [by rewrite Hc|].
      split; [done|]. split; [by rewrite HpermR|]. split.
      * intros Hflip HRs. apply Hsorted; [done|].
        by apply merge_pairs_Sorted.
      * intros Hinc. pose proof (merge_pairs_increasing func Rs Hinc) as Heq.
        fold Rs' in Heq. rewrite <- Heq. apply Hsame. by rewrite Heq.
  - exists s2, x1, (Z.of_nat g * 2), (concat Rs'). split; [done|].
    split; [lia|].
    split; [done|]. split; [done|]. split; [done|]. split; [done|].
    split; [|by apply merge_pairs_increasing].
    intros Hflip HRs.
    pose proof (merge_pairs_Sorted func Hflip Rs HRs) as HRs'.
    fold Rs' in HRs'.
    destruct Rs' as [|R [|R2 Rs2]]; [done| |simpl in Hlast; lia].
    simpl. rewrite app_nil_r. by apply Forall_cons in HRs' as [? _].
Qed.

(** The runs before the first pass: every element on its own. *)
Lemma singletons_concat (L : elements) : concat ((λ a, [a]) <$> L) = L.
Proof. induction L as [|a L IH]; [done|]. csimpl. by rewrite IH. Qed.

Lemma singletons_runs_ok (L : elements) : runs_ok 1 ((λ a, [a]) <$> L).
Proof.
  induction L as [|a L IH]; [done|]. csimpl.
  destruct L as [|b L]; csimpl in *; [lia|done].
Qed.

Lemma singletons_Sorted (L : elements) :
  Forall (Sorted precedes) ((λ a, [a]) <$> L).
Proof.
  apply Forall_fmap, Forall_forall. intros a _. simpl.
  constructor; constructor.
Qed.

(** [LIST_SORT] on a well-formed list: it returns, the list is again well
    formed, its chain is a rearrangement of the old one, no other handle
    and no record of [clean] changes, and the chain is in order as soon
    as [func] is total. *)
Lemma LIST_SORT_spec (fuel : nat) (s : state) (list : handle) (L : elements) :
  is_list s list L → (length L ≤ fuel)%nat →
  ∃ s' L',
    LIST_SORT fuel func s list = Done s' ∧
    is_list s' list L' ∧ L' ≡ₚ L ∧
    calls s' = calls s ∧
    (∀ list', list' ≠ list → heads s' list' = heads s list') ∧
    ((∀ a b, 0 ≤ func a b → func b a ≤ 0) → Sorted precedes L') ∧
    (StronglySorted (λ a b, func a b < 0) L → L' = L).
Proof.
  intros HL Hfuel. unfold is_list, _LIST_FST in HL. unfold LIST_SORT, _LIST_FST.
  destruct L as [|e [|e2 L]].
  - unfold chain in HL. simpl in HL. rewrite HL.
    exists s, []. repeat split; try done; intros _; constructor.
  - destruct HL as [Hfst Hlk]. simpl in Hlk. rewrite Hfst, Hlk.
    exists s, [e]. repeat split; try done;
      intros _; constructor; constructor.
  - pose proof HL as [Hfst [Hlk _]]. rewrite Hfst, Hlk.
    set (L0 := e :: e2 :: L) in *.
    destruct (sort_passes_spec fuel fuel 1 ((λ a, [a]) <$> L0) s (heads s list))
      as (s' & x' & gl' & R & Hrun & Hgl & Hh & Hc & HchR & HpermR &
          Hsorted & Hsame).
    + lia.
    + by rewrite singletons_concat.
    + apply singletons_runs_ok.
    + by rewrite singletons_concat.
    + by rewrite singletons_concat.
    + by rewrite length_fmap.
    + by rewrite length_fmap.
    + rewrite singletons_concat. simpl. lia.
    + rewrite singletons_concat in HpermR.
      change (Z.of_nat 1) with 1 in Hrun. rewrite Hfst in Hrun.
      rewrite Hrun. simpl.
      exists (set_LIST_FST s' list x'), R. split; [done|].
      split; [unfold is_list, _LIST_FST; simpl; by rewrite fn_lookup_insert|].
      split; [done|]. split; [done|]. split; [|split].
      * intros list' Hne. simpl. rewrite fn_lookup_insert_ne by done.
        by rewrite Hh.
      * intros Hflip. apply Hsorted; [done|]. apply singletons_Sorted.
      * intros Hinc. rewrite singletons_concat in Hsame. by apply Hsame.
Qed.
(** X30: on a well-formed chain of two or more elements the passes of the
    sort, started with run length 1, end, and the run length [gl] they end
    with is above 1 and at most twice the length of the chain. *)
Lemma sort_passes_run_length (fuel : nat) (s : state) (x : ptr) (L : elements) :
  chain (links s) x L → (2 ≤ length L)%nat → (length L ≤ fuel)%nat →
  ∃ s' x' gl',
    sort_passes fuel fuel func s 1 x = Done (s', x', gl') ∧
    1 < gl' ≤ 2 * Z.of_nat (length L).
Proof.
  intros HL Hlen Hfuel.
  destruct (sort_passes_spec fuel fuel 1 ((λ a, [a]) <$> L) s x)
    as (s' & x' & gl' & R & Hrun & Hgl & _).
  - lia.
  - rewrite singletons_concat. intros ->. simpl in Hlen. lia.
  - apply singletons_runs_ok.
  - by rewrite singletons_concat.
  - by rewrite singletons_concat.
  - by rewrite length_fmap.
  - by rewrite length_fmap.
  - rewrite singletons_concat. lia.
  - rewrite singletons_concat in Hgl. exists s', x', gl'.
    split; [exact Hrun|lia].
Qed.
End passes.

(** ** The sort as a whole *)

(** C1: for every well-formed list and every comparator that obeys the
    contract, [sort] returns and leaves a chain in which every adjacent pair
    [(a, b)] has [func a b <= 0]; this covers the lists of length 0, 1 and
    2 and those that take several passes. *)
Theorem sort_nondecreasing (func : addr → addr → Z) (s : state)
  (list : handle) (L : elements) (fuel : nat) :
  comparator func → is_list s list L → (length L ≤ fuel)%nat →
  ∃ s' L',
    LIST_SORT fuel func s list = Done s' ∧
    is_list s' list L' ∧ nondecreasing func L'.
Proof.
  intros Hc HL Hfuel.
  destruct (LIST_SORT_spec func fuel s list L HL Hfuel)
    as (s' & L' & Hrun & HL' & _ & _ & _ & Hsorted & _).
  exists s', L'. split; [done|]. split; [done|].
  apply Sorted_nondecreasing, Hsorted.
  intros a b. by apply comparator_ge_flip.
Qed.

Lemma sort_nondecreasing_witness :
  let s := push_all empty_state 0%nat [51; 31; 32; 11; 41; 12; 21]%positive in
  ∃ s' L',
    LIST_SORT 7 cmp_key s 0%nat = Done s' ∧
    is_list s' 0%nat L' ∧ nondecreasing cmp_key L'.
Proof.
  intros s.
  apply (sort_nondecreasing cmp_key s 0%nat
           [51; 31; 32; 11; 41; 12; 21]%positive 7).
  - exact cmp_key_comparator.
  - unfold is_list, chain. simpl. repeat split; reflexivity.
  - simpl. lia.
Defined.

(** C9: for every well-formed list and every comparator, [sort] returns and
    leaves a chain that ends in [NULL] and is a rearrangement of the old
    one: the same elements, each of them once. *)
Theorem sort_permutation (func : addr → addr → Z) (s : state)
  (list : handle) (L : elements) (fuel : nat) :
  is_list s list L → (length L ≤ fuel)%nat →
  ∃ s' L',
    LIST_SORT fuel func s list = Done s' ∧
    is_list s' list L' ∧ L' ≡ₚ L ∧ NoDup L' ∧
    (∀ e, e ∈ L' ↔ e ∈ L).
Proof.
  intros HL Hfuel.
  destruct (LIST_SORT_spec func fuel s list L HL Hfuel)
    as (s' & L' & Hrun & HL' & Hperm & _).
  exists s', L'. split; [done|]. split; [done|]. split; [done|].
  split; [by apply (chain_NoDup (links s') (_LIST_FST s' list))|].
  intros e. by rewrite Hperm.
Qed.

Lemma sort_permutation_witness :
  let s := push_all empty_state 0%nat [51; 31; 32; 11; 41]%positive in
  ∃ s' L',
    LIST_SORT 5 (λ _ _, 1) s 0%nat = Done s' ∧
    is_list s' 0%nat L' ∧ L' ≡ₚ [51; 31; 32; 11; 41]%positive.
Proof.
  intros s.
  destruct (sort_permutation (λ _ _, 1) s 0%nat
              [51; 31; 32; 11; 41]%positive 5)
    as (s' & L' & Hrun & HL' & Hperm & _).
  - unfold is_list, chain. simpl. repeat split; reflexivity.
  - simpl. lia.
  - exists s', L'. split; [exact Hrun|]. split; [exact HL' | exact Hperm].
Defined.

(** C3: the sort does not keep a sorted chain as it is.  The chain 11, 12
    of two elements that compare equal is in order, and [sort] turns it into
    12, 11. *)
Theorem sort_reorders_sorted_chain :
  let s := push_all empty_state 0%nat [11; 12]%positive in
  comparator cmp_key ∧
  is_list s 0%nat [11; 12]%positive ∧
  nondecreasing cmp_key [11; 12]%positive ∧
  ∃ s', LIST_SORT 2 cmp_key s 0%nat = Done s' ∧
        is_list s' 0%nat [12; 11]%positive.
Proof.
  intros s. split; [exact cmp_key_comparator|].
  split; [unfold is_list, chain; simpl; repeat split; reflexivity|].
  split.
  - intros [|[|i]] a b Ha Hb; simplify_eq/=. done.
  - eexists. split; [reflexivity|].
    unfold is_list, chain. simpl. repeat split; reflexivity.
Qed.

(** ** Chains that the sort does keep

    The sort leaves the chain as it is when every adjacent pair is in
    strict order, that is, when no two elements compare equal. *)

Lemma comparator_lt_trans func :
  comparator func → Transitive (λ a b : addr, func a b < 0).
Proof.
  intros Hc a b c Hab Hbc.
  pose proof (cmp_trans _ Hc a b c) as Hac.
  destruct (Z.lt_total (func a c) 0) as [?|[Hz|Hgt]]; [done| |lia].
  assert (Hca : func c a ≤ 0) by (apply comparator_ge_flip; [done|lia]).
  pose proof (cmp_trans _ Hc c a b Hca) as Hcb.
  apply (cmp_flip _ Hc) in Hbc. lia.
Qed.

Lemma adjacent_Sorted (R : relation addr) (l : elements) :
  (∀ (i : nat) a b, l !! i = Some a → l !! S i = Some b → R a b) →
  Sorted R l.
Proof.
  induction l as [|a l IH]; intros Hadj; [constructor|].
  constructor.
  - apply IH. intros i x y Hx Hy. by apply (Hadj (S i)).
  - destruct l as [|b l]; constructor. by apply (Hadj 0%nat).
Qed.

(** X28: on a well-formed list whose adjacent elements are all in strict
    order, [sort] with a comparator that obeys the contract returns and
    leaves the chain as it is. *)
Lemma sort_keeps_increasing_chain (func : addr → addr → Z) (s : state)
  (list : handle) (L : elements) (fuel : nat) :
  comparator func → is_list s list L →
  (∀ (i : nat) a b, L !! i = Some a → L !! S i = Some b → func a b < 0) →
  (length L ≤ fuel)%nat →
  ∃ s', LIST_SORT fuel func s list = Done s' ∧ is_list s' list L.
Proof.
  intros Hc HL Hinc Hfuel.
  destruct (LIST_SORT_spec func fuel s list L HL Hfuel)
    as (s' & L' & Hrun & HL' & _ & _ & _ & _ & Hsame).
  exists s'. split; [done|]. rewrite <- Hsame; [done|].
  apply (@Sorted_StronglySorted _ _ (comparator_lt_trans func Hc)).
  by apply adjacent_Sorted.
Qed.

Lemma sort_keeps_increasing_chain_witness :
  let s := push_all empty_state 0%nat [11; 21; 31]%positive in
  ∃ s', LIST_SORT 3 cmp_key s 0%nat = Done s' ∧
        is_list s' 0%nat [11; 21; 31]%positive.
Proof.
  intros s.
  apply (sort_keeps_increasing_chain cmp_key s 0%nat
           [11; 21; 31]%positive 3).
  - exact cmp_key_comparator.
  - unfold is_list, chain. simpl. repeat split; reflexivity.
  - intros [|[|[|i]]] a b Ha Hb; simpl in Ha, Hb;
      try discriminate; injection Ha as <-; injection Hb as <-;
      vm_compute; reflexivity.
  - simpl. lia.
Defined.

(** * Further properties of the macros

    The macros that read a list, on a well-formed list: what they return,
    in terms of the sequence of its elements. *)

Lemma nth_loop_spec (s : state) (n : Z) (L : elements) :
  ∀ (fuel : nat) (p : ptr) (i : Z),
    chain (links s) p L → (length L ≤ fuel)%nat →
    nth_loop fuel s p i n = Done (L !! Z.to_nat (n - i)).
Proof.
  induction L as [|e L IH]; intros fuel p i Hch Hfuel.
  - unfold chain in Hch. simpl in Hch. subst p.
    destruct fuel; simpl; by destruct (i <? n).
  - destruct Hch as [-> Hch].
    destruct (Z.ltb_spec i n) as [Hlt|Hge].
    + destruct fuel as [|fuel]; [simpl in Hfuel; lia|].
      simpl. destruct (Z.ltb_spec i n) as [_|?]; [|lia].
      rewrite IH; [|done|simpl in Hfuel; lia].
      by replace (Z.to_nat (n - i)) with (S (Z.to_nat (n - (i + 1)))) by lia.
    + replace (Z.to_nat (n - i)) with 0%nat by lia.
      destruct fuel; simpl; by destruct (Z.ltb_spec i n) as [?|_]; [lia|].
Qed.

Lemma find_loop_spec (func : addr → bool) (s : state) (L : elements) :
  ∀ (fuel : nat) (p : ptr),
    chain (links s) p L → (length L ≤ fuel)%nat →
    find_loop fuel func s p = Done (List.find func L).
Proof.
  induction L as [|e L IH]; intros fuel p Hch Hfuel.
  - unfold chain in Hch. simpl in Hch. subst p. by destruct fuel.
  - destruct Hch as [-> Hch].
    destruct fuel as [|fuel]; [simpl in Hfuel; lia|].
    simpl. destruct (func e); [done|].
    apply IH; [done|simpl in Hfuel; lia].
Qed.

Lemma all_loop_spec (func : addr → bool) (s : state) (L : elements) :
  ∀ (fuel : nat) (p : ptr),
    chain (links s) p L → (length L ≤ fuel)%nat →
    all_loop fuel func s p = Done (forallb func L).
Proof.
  induction L as [|e L IH]; intros fuel p Hch Hfuel.
  - unfold chain in Hch. simpl in Hch. subst p. by destruct fuel.
  - destruct Hch as [-> Hch].
    destruct fuel as [|fuel]; [simpl in Hfuel; lia|].
    simpl. destruct (func e); simpl; [|done].
    apply IH; [done|simpl in Hfuel; lia].
Qed.

Lemma any_loop_spec (func : addr → bool) (s : state) (L : elements) :
  ∀ (fuel : nat) (p : ptr),
    chain (links s) p L → (length L ≤ fuel)%nat →
    any_loop fuel func s p = Done (existsb func L).
Proof.
  induction L as [|e L IH]; intros fuel p Hch Hfuel.
  - unfold chain in Hch. simpl in Hch. subst p. by destruct fuel.
  - destruct Hch as [-> Hch].
    destruct fuel as [|fuel]; [simpl in Hfuel; lia|].
    simpl. destruct (func e); simpl; [done|].
    apply IH; [done|simpl in Hfuel; lia].
Qed.

Lemma member_loop_spec (s : state) (elem : ptr) (L : elements) :
  ∀ (fuel : nat) (p : ptr),
    chain (links s) p L → (length L ≤ fuel)%nat →
    member_loop fuel s p elem
    = Done (match elem with
            | Some x => bool_decide (x ∈ L)
            | None => false
            end).
Proof.
  induction L as [|e L IH]; intros fuel p Hch Hfuel.
  - unfold chain in Hch. simpl in Hch. subst p.
    destruct fuel, elem as [x|]; simpl; try done;
      by rewrite bool_decide_eq_false_2 by set_solver.
  - destruct Hch as [-> Hch].
    destruct fuel as [|fuel]; [simpl in Hfuel; lia|].
    simpl. case_bool_decide as Heq.
    + subst elem. by rewrite bool_decide_eq_true_2 by set_solver.
    + rewrite IH; [|done|simpl in Hfuel; lia].
      destruct elem as [x|]; [|done]. f_equal.
      apply bool_decide_ext. set_solver.
Qed.

Lemma map_loop_spec {W : Type} (func : addr → Z → W → W) (s : state)
  (L : elements) :
  ∀ (fuel : nat) (p : ptr) (i : Z) (w : W),
    chain (links s) p L → (length L ≤ fuel)%nat →
    map_loop fuel func s p i w = Done (visit func i L w).
Proof.
  induction L as [|e L IH]; intros fuel p i w Hch Hfuel.
  - unfold chain in Hch. simpl in Hch. subst p. by destruct fuel.
  - destruct Hch as [-> Hch].
    destruct fuel as [|fuel]; [simpl in Hfuel; lia|].
    simpl. apply IH; [done|simpl in Hfuel; lia].
Qed.

Lemma zip_loop_spec {W : Type} (func : addr → addr → Z → W → W)
  (lk1 lk2 : addr → ptr) (L1 : elements) :
  ∀ (L2 : elements) (fuel : nat) (a b : ptr) (i : Z) (w : W),
    chain lk1 a L1 → chain lk2 b L2 →
    (length L1 `min` length L2 ≤ fuel)%nat →
    zip_loop fuel func lk1 lk2 a b i w
    = Done (visit (λ ab, func ab.1 ab.2) i (zip L1 L2) w).
Proof.
  induction L1 as [|e1 L1 IH]; intros L2 fuel a b i w H1 H2 Hfuel.
  - unfold chain in H1. simpl in H1. subst a. by destruct fuel.
  - destruct H1 as [-> H1]. destruct L2 as [|e2 L2].
    + unfold chain in H2. simpl in H2. subst b. by destruct fuel.
    + destruct H2 as [-> H2].
      destruct fuel as [|fuel]; [simpl in Hfuel; lia|].
      simpl. apply IH; [done|done|simpl in Hfuel; lia].
Qed.

(** What [visit] does, seen through an action that only records its
    arguments: the items in order, with consecutive indices. *)
Lemma visit_record {A : Type} (l : list A) :
  ∀ (i : Z) (w : list (A * Z)),
    visit (λ a j w, w ++ [(a, j)]) i l w
    = w ++ zip l (seqZ i (Z.of_nat (length l))).
Proof.
  induction l as [|a l IH]; intros i w; [by rewrite app_nil_r|].
  simpl visit. rewrite IH. rewrite <- app_assoc. f_equal.
  rewrite length_cons, Nat2Z.inj_succ.
  rewrite (seqZ_cons i) by lia. simpl. f_equal.
  replace (Z.succ i) with (i + 1) by lia.
  by replace (Z.pred (Z.succ (Z.of_nat (length l))))
    with (Z.of_nat (length l)) by lia.
Qed.

Lemma visit_ext {A W : Type} (f g : A → Z → W → W) (l : list A) :
  (∀ a i w, f a i w = g a i w) →
  ∀ (i : Z) (w : W), visit f i l w = visit g i l w.
Proof.
  intros Hfg. induction l as [|a l IH]; intros i w; [done|].
  simpl. by rewrite Hfg, IH.
Qed.

(** X1: on a well-formed list [length] returns the number of elements of
    the chain. *)
Theorem LIST_LENGTH_counts (s : state) (list : handle) (L : elements)
  (fuel : nat) :
  is_list s list L → (length L ≤ fuel)%nat →
  LIST_LENGTH fuel s list = Done (Z.of_nat (length L)).
Proof.
  intros HL Hfuel. unfold LIST_LENGTH.
  by rewrite (length_loop_spec s L fuel _ 0 HL Hfuel).
Qed.

Lemma LIST_LENGTH_counts_witness :
  LIST_LENGTH 3 (push_all empty_state 0%nat [5; 6; 7]%positive) 0%nat = Done 3.
Proof.
  apply (LIST_LENGTH_counts _ 0%nat [5; 6; 7]%positive 3).
  - unfold is_list, chain. simpl. repeat split; reflexivity.
  - simpl. lia.
Defined.

(** X2: on a well-formed list [last] returns the last element of the chain,
    and [NULL] when the chain is empty. *)
Theorem LIST_LAST_last (s : state) (list : handle) (L : elements)
  (fuel : nat) :
  is_list s list L → (length L ≤ fuel)%nat →
  LIST_LAST fuel s list = Done (last L).
Proof.
  intros HL Hfuel. unfold is_list in HL. unfold LIST_LAST.
  destruct L as [|e rest].
  - unfold chain in HL. simpl in HL. by rewrite HL.
  - destruct HL as [-> Hch].
    destruct (last_loop_spec s rest fuel e Hch) as (x & -> & -> & _);
      [simpl in Hfuel; lia|done].
Qed.

Lemma LIST_LAST_last_witness :
  LIST_LAST 3 (push_all empty_state 0%nat [5; 6; 7]%positive) 0%nat
  = Done (Some 7%positive).
Proof.
  apply (LIST_LAST_last _ 0%nat [5; 6; 7]%positive 3).
  - unfold is_list, chain. simpl. repeat split; reflexivity.
  - simpl. lia.
Defined.

(** X3: on a well-formed list [nth] returns the element at offset [n],
    counted from 0, and [NULL] when [n] is not below the length; a negative
    [n] gives the first element, like [n = 0]. *)
Theorem LIST_NTH_lookup (s : state) (list : handle) (L : elements) (n : Z)
  (fuel : nat) :
  is_list s list L → (length L ≤ fuel)%nat →
  LIST_NTH fuel s list n = Done (L !! Z.to_nat n).
Proof.
  intros HL Hfuel. unfold is_list in HL. unfold LIST_NTH.
  destruct (_LIST_FST s list) as [e|] eqn:Hfst.
  - rewrite (nth_loop_spec s n L fuel (Some e) 0 HL Hfuel).
    by replace (n - 0) with n by lia.
  - by apply chain_nil in HL as ->.
Qed.

Lemma LIST_NTH_lookup_witness :
  let s := push_all empty_state 0%nat [5; 6; 7]%positive in
  LIST_NTH 3 s 0%nat 1 = Done (Some 6%positive) ∧
  LIST_NTH 3 s 0%nat 3 = Done None ∧
  LIST_NTH 3 s 0%nat (-2) = Done (Some 5%positive).
Proof.
  intros s.
  assert (HL : is_list s 0%nat [5; 6; 7]%positive).
  { unfold is_list, chain. simpl. repeat split; reflexivity. }
  assert (Hfuel : (length [5; 6; 7]%positive ≤ 3)%nat) by (simpl; lia).
  split; [|split].
  - exact (LIST_NTH_lookup s 0%nat [5; 6; 7]%positive 1 3 HL Hfuel).
  - exact (LIST_NTH_lookup s 0%nat [5; 6; 7]%positive 3 3 HL Hfuel).
  - exact (LIST_NTH_lookup s 0%nat [5; 6; 7]%positive (-2) 3 HL Hfuel).
Defined.

(** X4: on a well-formed list [find] returns the first element of the
    chain, in order, for which [func] holds, and [NULL] when there is
    none. *)
Theorem LIST_FIND_first (func : addr → bool) (s : state) (list : handle)
  (L : elements) (fuel : nat) :
  is_list s list L → (length L ≤ fuel)%nat →
  LIST_FIND fuel func s list = Done (List.find func L).
Proof. intros HL Hfuel. by apply find_loop_spec. Qed.

Lemma LIST_FIND_first_witness :
  LIST_FIND 4 (λ e, Pos.ltb 5 e)
    (push_all empty_state 0%nat [5; 6; 7; 8]%positive) 0%nat
  = Done (Some 6%positive).
Proof.
  assert (HL : is_list (push_all empty_state 0%nat [5; 6; 7; 8]%positive)
                 0%nat [5; 6; 7; 8]%positive).
  { unfold is_list, chain. simpl. repeat split; reflexivity. }
  assert (Hfuel : (length [5; 6; 7; 8]%positive ≤ 4)%nat) by (simpl; lia).
  exact (LIST_FIND_first (λ e, Pos.ltb 5 e) _ 0%nat _ 4 HL Hfuel).
Defined.

(** X5: on a well-formed list [all] tells whether [func] holds for every
    element and [any] whether it holds for some element; on an empty list
    [all] is true and [any] is false. *)
Theorem LIST_ALL_ANY_quantify (func : addr → bool) (s : state)
  (list : handle) (L : elements) (fuel : nat) :
  is_list s list L → (length L ≤ fuel)%nat →
  LIST_ALL fuel func s list = Done (forallb func L) ∧
  LIST_ANY fuel func s list = Done (existsb func L).
Proof.
  intros HL Hfuel. split; [by apply all_loop_spec | by apply any_loop_spec].
Qed.

Lemma LIST_ALL_ANY_quantify_witness :
  let s := push_all empty_state 0%nat [5; 6; 7]%positive in
  LIST_ALL 3 (λ e, Pos.ltb 5 e) s 0%nat = Done false ∧
  LIST_ANY 3 (λ e, Pos.ltb 5 e) s 0%nat = Done true.
Proof.
  intros s.
  assert (HL : is_list s 0%nat [5; 6; 7]%positive).
  { unfold is_list, chain. simpl. repeat split; reflexivity. }
  assert (Hfuel : (length [5; 6; 7]%positive ≤ 3)%nat) by (simpl; lia).
  exact (LIST_ALL_ANY_quantify (λ e, Pos.ltb 5 e) s 0%nat _ 3 HL Hfuel).
Defined.

(** X6: on a well-formed list [member] tells whether the given element is
    one of the elements of the chain, by address; it is false for
    [NULL]. *)
Theorem LIST_MEMBER_elem_of (s : state) (list : handle) (L : elements)
  (fuel : nat) :
  is_list s list L → (length L ≤ fuel)%nat →
  (∀ x, LIST_MEMBER fuel s list (Some x) = Done (bool_decide (x ∈ L))) ∧
  LIST_MEMBER fuel s list None = Done false.
Proof.
  intros HL Hfuel. split; [intros x|];
    unfold LIST_MEMBER; by rewrite (member_loop_spec s _ L fuel _ HL Hfuel).
Qed.

Lemma LIST_MEMBER_elem_of_witness :
  let s := push_all empty_state 0%nat [5; 6; 7]%positive in
  LIST_MEMBER 3 s 0%nat (Some 7%positive) = Done true ∧
  LIST_MEMBER 3 s 0%nat (Some 8%positive) = Done false.
Proof.
  intros s.
  destruct (LIST_MEMBER_elem_of s 0%nat [5; 6; 7]%positive 3) as [Hm _].
  - unfold is_list, chain. simpl. repeat split; reflexivity.
  - simpl. lia.
  - split; [exact (Hm 7%positive) | exact (Hm 8%positive)].
Defined.

(** X7: on a well-formed list [map] invokes [func] on every element of the
    chain, once, in order, with the indices 0, 1, 2, ...; an action that
    records its arguments ends with the elements paired with their
    indices. *)
Theorem LIST_MAP_visits {W : Type} (func : addr → Z → W → W) (s : state)
  (list : handle) (L : elements) (fuel : nat) (w : W) :
  is_list s list L → (length L ≤ fuel)%nat →
  LIST_MAP fuel func s list w = Done (visit func 0 L w) ∧
  LIST_MAP fuel (λ e i w, w ++ [(e, i)]) s list []
  = Done (zip L (seqZ 0 (Z.of_nat (length L)))).
Proof.
  intros HL Hfuel. unfold LIST_MAP.
  rewrite !(map_loop_spec _ s L fuel _ 0 _ HL Hfuel).
  by rewrite visit_record.
Qed.

Lemma LIST_MAP_visits_witness :
  LIST_MAP 3 (λ e i w, w ++ [(e, i)])
    (push_all empty_state 0%nat [5; 6; 7]%positive) 0%nat []
  = Done [(5%positive, 0); (6%positive, 1); (7%positive, 2)].
Proof.
  assert (HL : is_list (push_all empty_state 0%nat [5; 6; 7]%positive)
                 0%nat [5; 6; 7]%positive).
  { unfold is_list, chain. simpl. repeat split; reflexivity. }
  assert (Hfuel : (length [5; 6; 7]%positive ≤ 3)%nat) by (simpl; lia).
  exact (proj2 (LIST_MAP_visits (λ e i w, w ++ [(e, i)]) _ 0%nat _ 3 []
                  HL Hfuel)).
Defined.

(** X8: on two well-formed lists [zip] invokes [func] on the pairs of
    elements at equal positions, in order, with the indices 0, 1, 2, ...,
    and stops with the shorter chain: the number of invocations is the
    smaller of the two lengths. *)
Theorem LIST_ZIP_visits {W : Type} (func : addr → addr → Z → W → W)
  (s1 s2 : state) (list1 list2 : handle) (L1 L2 : elements) (fuel : nat)
  (w : W) :
  is_list s1 list1 L1 → is_list s2 list2 L2 →
  (length L1 `min` length L2 ≤ fuel)%nat →
  LIST_ZIP fuel func s1 list1 s2 list2 w
  = Done (visit (λ ab, func ab.1 ab.2) 0 (zip L1 L2) w) ∧
  LIST_ZIP fuel (λ a b i w, w ++ [(a, b, i)]) s1 list1 s2 list2 []
  = Done (zip (zip L1 L2)
            (seqZ 0 (Z.of_nat (length L1 `min` length L2)))).
Proof.
  intros H1 H2 Hfuel. unfold LIST_ZIP.
  rewrite !(zip_loop_spec _ _ _ L1 L2 fuel _ _ 0 _ H1 H2 Hfuel).
  split; [done|].
  rewrite (visit_ext _ (λ ab j w, w ++ [(ab, j)])) by (by intros [a b] i w').
  rewrite (visit_record (zip L1 L2) 0 []). by rewrite length_zip.
Qed.

Lemma LIST_ZIP_visits_witness :
  let s := push_all (push_all empty_state 0%nat [1; 2; 3]%positive)
             1%nat [4; 5; 6; 7; 8]%positive in
  LIST_ZIP 3 (λ a b i w, w ++ [(a, b, i)]) s 0%nat s 1%nat []
  = Done [(1%positive, 4%positive, 0); (2%positive, 5%positive, 1);
          (3%positive, 6%positive, 2)].
Proof.
  intros s.
  assert (H1 : is_list s 0%nat [1; 2; 3]%positive).
  { unfold is_list, chain. simpl. repeat split; reflexivity. }
  assert (H2 : is_list s 1%nat [4; 5; 6; 7; 8]%positive).
  { unfold is_list, chain. simpl. repeat split; reflexivity. }
  assert (Hfuel : (length [1; 2; 3]%positive
                   `min` length [4; 5; 6; 7; 8]%positive ≤ 3)%nat)
    by (simpl; lia).
  exact (proj2 (LIST_ZIP_visits (λ a b i w, w ++ [(a, b, i)]) s s
                  0%nat 1%nat _ _ 3 [] H1 H2 Hfuel)).
Defined.

(** ** The macros that edit a list *)

Lemma run_clean_heads clean s e : heads (run_clean clean s e) = heads s.
Proof. by destruct clean. Qed.

Lemma run_clean_links clean s e : links (run_clean clean s e) = links s.
Proof. by destruct clean. Qed.

Lemma run_clean_cleaned clean s e :
  cleaned (run_clean clean s e) = cleaned s ++ (if clean then [e] else []).
Proof.
  unfold cleaned. destruct clean; simpl;
    [by rewrite fmap_app|by rewrite app_nil_r].
Qed.

Lemma LIST_POP_spec (clean : bool) (s : state) (list : handle) (e : addr)
  (L : elements) :
  is_list s list (e :: L) →
  is_list (LIST_POP clean s list) list L ∧
  links (LIST_POP clean s list) = links s ∧
  (∀ list', list' ≠ list →
     heads (LIST_POP clean s list) list' = heads s list') ∧
  cleaned (LIST_POP clean s list) = cleaned s ++ (if clean then [e] else []).
Proof.
  intros [Hfst Hch]. unfold LIST_POP. rewrite Hfst.
  unfold is_list, _LIST_FST.
  rewrite run_clean_heads, run_clean_links, run_clean_cleaned. simpl.
  rewrite fn_lookup_insert. repeat split; try done.
  intros list' Hne. by rewrite fn_lookup_insert_ne.
Qed.

(** X9: on a well-formed, non-empty list [pop] unlinks the first element
    and nothing else: the chain loses its head, no link is rewritten, and
    [clean], when given, is invoked once, on the removed element. *)
Theorem LIST_POP_head (clean : bool) (s : state) (list : handle) (e : addr)
  (L : elements) :
  is_list s list (e :: L) →
  is_list (LIST_POP clean s list) list L ∧
  links (LIST_POP clean s list) = links s ∧
  cleaned (LIST_POP clean s list) = cleaned s ++ (if clean then [e] else []).
Proof.
  intros HL. destruct (LIST_POP_spec clean s list e L HL) as (? & ? & _ & ?).
  done.
Qed.

Lemma LIST_POP_head_witness :
  let s := push_all empty_state 0%nat [5; 6; 7]%positive in
  is_list (LIST_POP true s 0%nat) 0%nat [6; 7]%positive ∧
  links (LIST_POP true s 0%nat) = links s ∧
  cleaned (LIST_POP true s 0%nat) = [5]%positive.
Proof.
  intros s.
  apply (LIST_POP_head true s 0%nat 5%positive [6; 7]%positive).
  unfold is_list, chain. simpl. repeat split; reflexivity.
Defined.

(** X10: [push] of an element that is not in the chain puts it in front:
    the chain gains the element as its head, and only the link of that
    element is rewritten. *)
Theorem LIST_PUSH_front (s : state) (list : handle) (e : addr)
  (L : elements) :
  is_list s list L → e ∉ L →
  ∃ s', LIST_PUSH s list (Some e) = Done s' ∧
        is_list s' list (e :: L) ∧
        (∀ a, a ≠ e → links s' a = links s a) ∧
        calls s' = calls s.
Proof.
  intros HL He. unfold is_list, _LIST_FST, chain in HL.
  eexists. split; [done|]. unfold is_list, _LIST_FST, chain. simpl.
  rewrite !fn_lookup_insert. repeat split; try done.
  - by apply lseg_insert.
  - intros a Ha. by rewrite fn_lookup_insert_ne.
Qed.

Lemma LIST_PUSH_front_witness :
  let s := push_all empty_state 0%nat [6; 7]%positive in
  ∃ s', LIST_PUSH s 0%nat (Some 5%positive) = Done s' ∧
        is_list s' 0%nat [5; 6; 7]%positive.
Proof.
  intros s.
  destruct (LIST_PUSH_front s 0%nat 5%positive [6; 7]%positive)
    as (s' & Hpush & HL & _).
  - unfold is_list, chain. simpl. repeat split; reflexivity.
  - apply (bool_decide_unpack _). vm_compute. exact I.
  - exists s'. split; [exact Hpush | exact HL].
Defined.

(** X11: [push] followed by [pop] gives the list its old head back, for
    every memory and every element: only the link of the pushed element may
    differ afterwards, and [clean], when given, is invoked once, on that
    element; a well-formed list that did not hold the element has its old
    chain again. *)
Theorem LIST_PUSH_POP_round_trip (clean : bool) (s : state) (list : handle)
  (e : addr) :
  ∃ s1, LIST_PUSH s list (Some e) = Done s1 ∧
        (∀ list', heads (LIST_POP clean s1 list) list' = heads s list') ∧
        (∀ a, a ≠ e → links (LIST_POP clean s1 list) a = links s a) ∧
        cleaned (LIST_POP clean s1 list)
          = cleaned s ++ (if clean then [e] else []) ∧
        (∀ L, is_list s list L → e ∉ L →
              is_list (LIST_POP clean s1 list) list L).
Proof.
  eexists. split; [done|].
  unfold LIST_POP, _LIST_FST. simpl. rewrite !fn_lookup_insert.
  rewrite run_clean_heads, run_clean_links, run_clean_cleaned. simpl.
  assert (Hheads : ∀ list', <[list := heads s list]>
                     (<[list := Some e]> (heads s)) list' = heads s list').
  { intros list'.
    destruct (decide (list' = list)) as [->|Hne];
      [by rewrite fn_lookup_insert|by rewrite !fn_lookup_insert_ne]. }
  repeat split.
  - exact Hheads.
  - intros a Ha. by rewrite fn_lookup_insert_ne.
  - intros L HL He. unfold is_list, _LIST_FST, chain in *.
    rewrite run_clean_heads, run_clean_links. simpl. rewrite Hheads.
    by apply lseg_insert.
Qed.

Lemma LIST_PUSH_POP_round_trip_witness :
  let s := push_all empty_state 0%nat [6; 7]%positive in
  ∃ s1, LIST_PUSH s 0%nat (Some 5%positive) = Done s1 ∧
        is_list (LIST_POP true s1 0%nat) 0%nat [6; 7]%positive.
Proof.
  intros s.
  destruct (LIST_PUSH_POP_round_trip true s 0%nat 5%positive)
    as (s1 & Hpush & _ & _ & _ & Hback).
  exists s1. split; [exact Hpush|]. apply Hback.
  - unfold is_list, chain. simpl. repeat split; reflexivity.
  - apply (bool_decide_unpack _). vm_compute. exact I.
Defined.

(** X12: [insert] of an element that is not in the chain, after an element
    of the chain, puts it directly behind that element; the rest of the
    chain keeps its order. *)
Theorem LIST_INSERT_after (s : state) (list : handle) (a b : addr)
  (L1 L2 : elements) :
  is_list s list (L1 ++ a :: L2) → b ∉ L1 ++ a :: L2 →
  ∃ s', LIST_INSERT s (Some a) (Some b) = Done s' ∧
        is_list s' list (L1 ++ a :: b :: L2) ∧
        heads s' = heads s ∧ calls s' = calls s.
Proof.
  intros HL Hb. pose proof (chain_NoDup _ _ _ HL) as Hdup.
  unfold is_list, chain in HL. apply lseg_app in HL as (m & H1 & [-> H2]).
  apply NoDup_app in Hdup as (_ & Hdisj & Hdup2).
  apply NoDup_cons in Hdup2 as [Ha2 _].
  assert (Ha1 : a ∉ L1) by (intros Hin; apply (Hdisj a Hin); set_solver).
  assert (Hab : a ≠ b) by set_solver.
  eexists. split; [done|]. split; [|done].
  unfold is_list, _LIST_FST, chain. simpl. apply lseg_app.
  exists (Some a). split.
  - apply lseg_insert; [done|]. apply lseg_insert; [set_solver|done].
  - split; [done|]. rewrite fn_lookup_insert. split; [done|].
    rewrite fn_lookup_insert_ne, fn_lookup_insert by done.
    apply lseg_insert; [done|]. apply lseg_insert; [set_solver|done].
Qed.

Lemma LIST_INSERT_after_witness :
  let s := push_all empty_state 0%nat [5; 6; 7]%positive in
  ∃ s', LIST_INSERT s (Some 6%positive) (Some 9%positive) = Done s' ∧
        is_list s' 0%nat [5; 6; 9; 7]%positive.
Proof.
  intros s.
  destruct (LIST_INSERT_after s 0%nat 6%positive 9%positive
              [5]%positive [7]%positive) as (s' & Hins & HL & _).
  - unfold is_list, chain. simpl. repeat split; reflexivity.
  - apply (bool_decide_unpack _). vm_compute. exact I.
  - exists s'. split; [exact Hins | exact HL].
Defined.

(** X13: [remove] after an element of the chain unlinks the element that
    follows it and hands it to [clean], when given; the rest of the chain
    keeps its order.  After the last element of the chain it does
    nothing. *)
Theorem LIST_REMOVE_after (clean : bool) (s : state) (list : handle)
  (a : addr) (L1 : elements) :
  (∀ e L2,
     is_list s list (L1 ++ a :: e :: L2) →
     ∃ s', LIST_REMOVE clean s (Some a) = Done s' ∧
           is_list s' list (L1 ++ a :: L2) ∧
           heads s' = heads s ∧
           cleaned s' = cleaned s ++ (if clean then [e] else [])) ∧
  (is_list s list (L1 ++ [a]) → LIST_REMOVE clean s (Some a) = Done s).
Proof.
  split.
  - intros e L2 HL. pose proof (chain_NoDup _ _ _ HL) as Hdup.
    unfold is_list, chain in HL.
    apply lseg_app in HL as (m & H1 & [-> [Hae H2]]).
    apply NoDup_app in Hdup as (_ & Hdisj & Hdup2).
    apply NoDup_cons in Hdup2 as [Ha2 _].
    assert (Ha1 : a ∉ L1) by (intros Hin; apply (Hdisj a Hin); set_solver).
    rewrite (LIST_REMOVE_unlinked clean s a e Hae).
    eexists. split; [done|].
    rewrite unlinked_heads, unlinked_cleaned.
    split; [|done]. unfold is_list, _LIST_FST, chain.
    rewrite unlinked_heads, unlinked_links. apply lseg_app.
    exists (Some a). split; [by apply lseg_insert|].
    split; [done|]. rewrite fn_lookup_insert.
    apply lseg_insert; [set_solver|done].
  - intros HL. unfold is_list, chain in HL.
    apply lseg_app in HL as (m & _ & [-> Hnull]). simpl in Hnull.
    unfold LIST_REMOVE. simpl. by rewrite Hnull.
Qed.

Lemma LIST_REMOVE_after_witness :
  let s := push_all empty_state 0%nat [5; 6; 7]%positive in
  ∃ s', LIST_REMOVE true s (Some 5%positive) = Done s' ∧
        is_list s' 0%nat [5; 7]%positive ∧
        cleaned s' = [6]%positive.
Proof.
  intros s.
  destruct (LIST_REMOVE_after true s 0%nat 5%positive []) as [Hrem _].
  destruct (Hrem 6%positive [7]%positive) as (s' & Hrun & HL & _ & Hcl).
  - unfold is_list, chain. simpl. repeat split; reflexivity.
  - exists s'. split; [exact Hrun|]. split; [exact HL | exact Hcl].
Defined.

(** X14: [insert] of an element behind another one, followed by [remove]
    after that one, undoes the insertion: every link but that of the
    inserted element is as before, no head changes, and [clean], when
    given, is invoked once, on the inserted element. *)
Theorem LIST_INSERT_REMOVE_round_trip (clean : bool) (s : state)
  (a b : addr) :
  a ≠ b →
  ∃ s1 s2,
    LIST_INSERT s (Some a) (Some b) = Done s1 ∧
    LIST_REMOVE clean s1 (Some a) = Done s2 ∧
    (∀ x, x ≠ b → links s2 x = links s x) ∧
    heads s2 = heads s ∧
    cleaned s2 = cleaned s ++ (if clean then [b] else []).
Proof.
  intros Hab.
  set (s1 := {| heads := heads s;
                links := <[a := Some b]> (<[b := links s a]> (links s));
                calls := calls s |}).
  assert (Hlk : links s1 a = Some b) by apply fn_lookup_insert.
  exists s1, (unlinked clean s1 a b). split; [done|].
  split; [by apply LIST_REMOVE_unlinked|]. rewrite unlinked_heads, unlinked_cleaned, unlinked_links.
  repeat split; try done.
  intros x Hx. simpl.
  destruct (decide (x = a)) as [->|Hxa].
  - rewrite fn_lookup_insert.
    rewrite fn_lookup_insert_ne by done. by rewrite fn_lookup_insert.
  - by rewrite !fn_lookup_insert_ne.
Qed.

Lemma LIST_INSERT_REMOVE_round_trip_witness :
  let s := push_all empty_state 0%nat [5; 6; 7]%positive in
  ∃ s1 s2,
    LIST_INSERT s (Some 5%positive) (Some 9%positive) = Done s1 ∧
    LIST_REMOVE true s1 (Some 5%positive) = Done s2 ∧
    cleaned s2 = [9]%positive.
Proof.
  intros s.
  destruct (LIST_INSERT_REMOVE_round_trip true s 5%positive 9%positive)
    as (s1 & s2 & Hins & Hrem & _ & _ & Hcl); [discriminate|].
  exists s1, s2. split; [exact Hins|]. split; [exact Hrem | exact Hcl].
Defined.

Lemma LIST_FREE_spec (clean : bool) (list : handle) (L : elements) :
  ∀ (fuel : nat) (s : state),
    is_list s list L → (length L ≤ fuel)%nat →
    ∃ s', LIST_FREE fuel clean s list = Done s' ∧
          is_list s' list [] ∧ links s' = links s ∧
          (∀ list', list' ≠ list → heads s' list' = heads s list') ∧
          cleaned s' = cleaned s ++ (if clean then L else []).
Proof.
  induction L as [|e L IH]; intros fuel s HL Hfuel.
  - exists s. pose proof HL as Hfst. unfold is_list, chain in Hfst.
    simpl in Hfst. split; [by destruct fuel; simpl; rewrite Hfst|].
    repeat split; try done. destruct clean; by rewrite app_nil_r.
  - destruct (LIST_POP_spec clean s list e L HL) as (HL1 & Hlk1 & Hh1 & Hc1).
    destruct fuel as [|fuel]; [simpl in Hfuel; lia|].
    destruct (IH fuel _ HL1) as (s' & Hrun & HL' & Hlk & Hh & Hc);
      [simpl in Hfuel; lia|].
    exists s'. destruct HL as [Hfst _]. split; [simpl; by rewrite Hfst|].
    split; [done|]. split; [congruence|]. split.
    + intros list' Hne. rewrite Hh by done. by apply Hh1.
    + rewrite Hc, Hc1, <- app_assoc. by destruct clean.
Qed.

(** X15: on a well-formed list [free] leaves the list empty, rewrites no
    link and touches no other list, and [clean], when given, is invoked
    once on every element of the chain, in the order of the chain. *)
Theorem LIST_FREE_all (clean : bool) (s : state) (list : handle)
  (L : elements) (fuel : nat) :
  is_list s list L → (length L ≤ fuel)%nat →
  ∃ s', LIST_FREE fuel clean s list = Done s' ∧
        LIST_EMPTY s' list = true ∧ links s' = links s ∧
        (∀ list', list' ≠ list → heads s' list' = heads s list') ∧
        cleaned s' = cleaned s ++ (if clean then L else []).
Proof.
  intros HL Hfuel.
  destruct (LIST_FREE_spec clean list L fuel s HL Hfuel)
    as (s' & Hrun & HL' & Hlk & Hh & Hc).
  exists s'. split; [done|]. split; [|done].
  unfold LIST_EMPTY. apply bool_decide_eq_true. exact HL'.
Qed.

Lemma LIST_FREE_all_witness :
  let s := push_all empty_state 0%nat [5; 6; 7]%positive in
  ∃ s', LIST_FREE 3 true s 0%nat = Done s' ∧
        LIST_EMPTY s' 0%nat = true ∧
        cleaned s' = [5; 6; 7]%positive.
Proof.
  intros s.
  destruct (LIST_FREE_all true s 0%nat [5; 6; 7]%positive 3)
    as (s' & Hrun & Hempty & _ & _ & Hcl).
  - unfold is_list, chain. simpl. repeat split; reflexivity.
  - simpl. lia.
  - exists s'. split; [exact Hrun|]. split; [exact Hempty | exact Hcl].
Defined.

(** X16: on a well-formed list [drop] removes the first [n] elements, or
    all of them when the chain has fewer, and nothing for [n <= 0]; no link
    is rewritten, and [clean], when given, is invoked once on every removed
    element, in the order of the chain.  [n] is the argument converted to
    [intmax_t], as the macro compares it: the argument itself when that is
    within the range of [intmax_t] ([to_intmax_id]), and a negative number,
    so that nothing is removed, for an argument from [2^63] up to
    [2^64 - 1] ([to_intmax_wrap]). *)
Theorem LIST_DROP_prefix (clean : bool) (s : state) (list : handle)
  (L : elements) (n : Z) :
  is_list s list L →
  let k := Z.to_nat (to_intmax n) in
  is_list (LIST_DROP clean s list n) list (drop k L) ∧
  links (LIST_DROP clean s list n) = links s ∧
  cleaned (LIST_DROP clean s list n)
    = cleaned s ++ (if clean then take k L else []).
Proof.
  intros HL0 k0. revert HL0.
  unfold LIST_DROP. fold k0. generalize k0 as k. clear k0 n.
  intros k. revert s L. induction k as [|k IH]; intros s L HL.
  - simpl. rewrite drop_0, take_0. repeat split; try done.
    destruct clean; by rewrite app_nil_r.
  - destruct L as [|e L].
    + pose proof HL as Hfst. unfold is_list, chain in Hfst. simpl in Hfst.
      simpl. unfold LIST_POP. rewrite !Hfst. repeat split; try done.
      destruct clean; by rewrite app_nil_r.
    + destruct (LIST_POP_spec clean s list e L HL) as (HL1 & Hlk1 & _ & Hc1).
      simpl drop_loop.
      destruct (_LIST_FST (LIST_POP clean s list) list) as [e'|] eqn:Hfst.
      * destruct (IH _ L HL1) as (HL' & Hlk & Hc).
        split; [done|]. split; [congruence|].
        rewrite Hc, Hc1, <- app_assoc. by destruct clean.
      * unfold is_list in HL1. rewrite Hfst in HL1.
        apply chain_nil in HL1 as ->. cbn [drop take].
        rewrite drop_nil, take_nil. unfold is_list. rewrite Hfst.
        repeat split; try done.
Qed.

Lemma LIST_DROP_prefix_witness :
  let s := push_all empty_state 0%nat [5; 6; 7]%positive in
  is_list (LIST_DROP true s 0%nat 2) 0%nat [7]%positive ∧
  cleaned (LIST_DROP true s 0%nat 2) = [5; 6]%positive ∧
  is_list (LIST_DROP true s 0%nat 9) 0%nat [] ∧
  is_list (LIST_DROP true s 0%nat (2 ^ 64 - 1)) 0%nat [5; 6; 7]%positive ∧
  cleaned (LIST_DROP true s 0%nat (2 ^ 64 - 1)) = [].
Proof.
  intros s.
  assert (HL : is_list s 0%nat [5; 6; 7]%positive).
  { unfold is_list, chain. simpl. repeat split; reflexivity. }
  destruct (LIST_DROP_prefix true s 0%nat [5; 6; 7]%positive 2 HL)
    as (H2 & _ & Hc2).
  destruct (LIST_DROP_prefix true s 0%nat [5; 6; 7]%positive 9 HL)
    as (H9 & _ & _).
  destruct (LIST_DROP_prefix true s 0%nat [5; 6; 7]%positive (2 ^ 64 - 1) HL)
    as (Hw & _ & Hcw).
  split; [exact H2|]. split; [exact Hc2|]. split; [exact H9|].
  split; [exact Hw | exact Hcw].
Defined.

(** X17: moving a chain from one list to another with [detach] and
    [attach]: the second list gets the chain, the first is empty, and no
    link is rewritten. *)
Theorem LIST_DETACH_ATTACH_transfer (s : state) (list1 list2 : handle)
  (L : elements) :
  list1 ≠ list2 → is_list s list2 L →
  let s' := LIST_ATTACH (LIST_DETACH s list2) list1 (LIST_FIRST s list2) in
  is_list s' list1 L ∧ LIST_EMPTY s' list2 = true ∧
  links s' = links s ∧ calls s' = calls s.
Proof.
  intros Hne HL s'. unfold s', LIST_ATTACH, LIST_DETACH, LIST_FIRST, LIST_EMPTY.
  unfold is_list, _LIST_FST in *. simpl.
  rewrite fn_lookup_insert, fn_lookup_insert_ne, fn_lookup_insert by done.
  done.
Qed.

Lemma LIST_DETACH_ATTACH_transfer_witness :
  let s := push_all empty_state 1%nat [5; 6; 7]%positive in
  is_list (LIST_ATTACH (LIST_DETACH s 1%nat) 0%nat (LIST_FIRST s 1%nat))
    0%nat [5; 6; 7]%positive.
Proof.
  intros s.
  apply (LIST_DETACH_ATTACH_transfer s 0%nat 1%nat [5; 6; 7]%positive).
  - discriminate.
  - unfold is_list, chain. simpl. repeat split; reflexivity.
Defined.

(** X18: [append] of a list to itself changes nothing, in every memory: the
    head is cleared and put back, no link is rewritten. *)
Theorem LIST_APPEND_self (s : state) (list : handle) (fuel : nat) :
  ∃ s', LIST_APPEND fuel s list list = Done s' ∧
        (∀ list', heads s' list' = heads s list') ∧
        links s' = links s ∧ calls s' = calls s.
Proof.
  unfold LIST_APPEND, LIST_LAST, _LIST_FST. simpl.
  rewrite fn_lookup_insert. simpl. eexists. split; [done|]. simpl.
  repeat split. intros list'.
  destruct (decide (list' = list)) as [->|Hne];
    [by rewrite fn_lookup_insert|by rewrite !fn_lookup_insert_ne].
Qed.

(** X19: on a well-formed list [empty] is true exactly when the chain has
    no element, and a list set up by [new] is empty whatever it held. *)
Theorem LIST_EMPTY_iff (s : state) (list : handle) (L : elements) :
  is_list s list L →
  (LIST_EMPTY s list = true ↔ L = []) ∧
  LIST_EMPTY (LIST_NEW s list) list = true ∧
  is_list (LIST_NEW s list) list [].
Proof.
  intros HL. unfold is_list, _LIST_FST in HL. split; [|split].
  - unfold LIST_EMPTY, _LIST_FST. rewrite bool_decide_eq_true. split.
    + intros Hfst. rewrite Hfst in HL. by apply chain_nil in HL.
    + intros ->. exact HL.
  - unfold LIST_EMPTY, LIST_NEW, _LIST_FST. simpl.
    by rewrite fn_lookup_insert.
  - unfold is_list, LIST_NEW, _LIST_FST, chain. simpl.
    by rewrite fn_lookup_insert.
Qed.

Lemma LIST_EMPTY_iff_witness :
  LIST_EMPTY (push_all empty_state 0%nat [5; 6]%positive) 0%nat = true
  ↔ [5; 6]%positive = [].
Proof.
  apply (LIST_EMPTY_iff _ 0%nat [5; 6]%positive).
  unfold is_list, chain. simpl. repeat split; reflexivity.
Defined.

(** ** Reverse *)

Lemma reverse_loop_spec (L : elements) :
  ∀ (fuel : nat) (s : state) (p c : ptr) (P : elements),
    chain (links s) c L → chain (links s) p P →
    (∀ e, e ∈ L → e ∉ P) → (length L ≤ fuel)%nat →
    ∃ s' p',
      reverse_loop fuel s p c = Done (s', p') ∧
      chain (links s') p' (reverse L ++ P) ∧
      heads s' = heads s ∧ calls s' = calls s ∧
      (∀ x, x ∉ L → links s' x = links s x).
Proof.
  induction L as [|e L IH]; intros fuel s p c P HL HP Hdisj Hfuel.
  - unfold chain in HL. simpl in HL. subst c. exists s, p.
    split; [by destruct fuel|]. done.
  - pose proof (chain_NoDup _ _ _ HL) as Hdup.
    apply NoDup_cons in Hdup as [HeL _].
    destruct HL as [-> HL].
    destruct fuel as [|fuel]; [simpl in Hfuel; lia|].
    set (s1 := {| heads := heads s; links := <[e := p]> (links s);
                  calls := calls s |}).
    destruct (IH fuel s1 (Some e) (links s e) (e :: P))
      as (s' & p' & Hrun & Hch & Hh & Hc & Hfr).
    + unfold chain. simpl. by apply lseg_insert.
    + split; [done|]. simpl. rewrite fn_lookup_insert.
      apply lseg_insert; [|done]. apply Hdisj. set_solver.
    + intros x Hx. apply not_elem_of_cons. split; [by intros ->|].
      apply Hdisj. set_solver.
    + simpl in Hfuel. lia.
    + exists s', p'. split; [done|]. split.
      { rewrite reverse_cons, <- app_assoc. done. }
      split; [done|]. split; [done|].
      intros x Hx. rewrite Hfr by set_solver. simpl.
      apply fn_lookup_insert_ne. set_solver.
Qed.

Lemma LIST_REVERSE_spec (s : state) (list : handle) (L : elements)
  (fuel : nat) :
  is_list s list L → (length L ≤ fuel)%nat →
  ∃ s', LIST_REVERSE fuel s list = Done s' ∧
        is_list s' list (reverse L) ∧
        (∀ list', list' ≠ list → heads s' list' = heads s list') ∧
        (∀ x, x ∉ L → links s' x = links s x) ∧
        calls s' = calls s.
Proof.
  intros HL Hfuel.
  destruct (reverse_loop_spec L fuel s None (_LIST_FST s list) [] HL)
    as (s' & p' & Hrun & Hch & Hh & Hc & Hfr); [done|set_solver|done|].
  rewrite app_nil_r in Hch.
  exists (set_LIST_FST s' list p'). split.
  { unfold LIST_REVERSE. by rewrite Hrun. }
  split; [unfold is_list, _LIST_FST; simpl; by rewrite fn_lookup_insert|].
  split; [|done].
  intros list' Hne. simpl. rewrite fn_lookup_insert_ne by done.
  by rewrite Hh.
Qed.

(** X20: on a well-formed list [reverse] reverses the chain in place: the
    same elements in the opposite order, the old last element first; links
    of other elements, other lists and the record of [clean] stay as they
    are. *)
Theorem LIST_REVERSE_reverses (s : state) (list : handle) (L : elements)
  (fuel : nat) :
  is_list s list L → (length L ≤ fuel)%nat →
  ∃ s', LIST_REVERSE fuel s list = Done s' ∧
        is_list s' list (reverse L) ∧
        LIST_FIRST s' list = last L ∧
        (∀ list', list' ≠ list → heads s' list' = heads s list') ∧
        (∀ x, x ∉ L → links s' x = links s x) ∧
        calls s' = calls s.
Proof.
  intros HL Hfuel.
  destruct (LIST_REVERSE_spec s list L fuel HL Hfuel)
    as (s' & Hrun & HL' & Hh & Hfr & Hc).
  exists s'. split; [done|]. split; [done|]. split; [|done].
  unfold LIST_FIRST. unfold is_list in HL'.
  rewrite <- head_reverse. unfold chain in HL'.
  destruct (reverse L) as [|x l]; simpl in HL' |- *; [done|by destruct HL'].
Qed.

Lemma LIST_REVERSE_reverses_witness :
  let s := push_all empty_state 0%nat [5; 6; 7]%positive in
  ∃ s', LIST_REVERSE 3 s 0%nat = Done s' ∧
        is_list s' 0%nat [7; 6; 5]%positive.
Proof.
  intros s.
  destruct (LIST_REVERSE_reverses s 0%nat [5; 6; 7]%positive 3)
    as (s' & Hrun & HL & _).
  - unfold is_list, chain. simpl. repeat split; reflexivity.
  - simpl. lia.
  - exists s'. split; [exact Hrun | exact HL].
Defined.

(** X21: on a well-formed list [reverse] applied twice gives the chain
    back, with the same elements in the same order. *)
Theorem LIST_REVERSE_twice (s : state) (list : handle) (L : elements)
  (fuel : nat) :
  is_list s list L → (length L ≤ fuel)%nat →
  ∃ s1 s2,
    LIST_REVERSE fuel s list = Done s1 ∧
    LIST_REVERSE fuel s1 list = Done s2 ∧
    is_list s2 list L.
Proof.
  intros HL Hfuel.
  destruct (LIST_REVERSE_spec s list L fuel HL Hfuel)
    as (s1 & Hrun1 & HL1 & _).
  destruct (LIST_REVERSE_spec s1 list (reverse L) fuel HL1)
    as (s2 & Hrun2 & HL2 & _); [by rewrite length_reverse|].
  exists s1, s2. rewrite reverse_involutive in HL2. done.
Qed.

Lemma LIST_REVERSE_twice_witness :
  let s := push_all empty_state 0%nat [5; 6; 7]%positive in
  ∃ s1 s2,
    LIST_REVERSE 3 s 0%nat = Done s1 ∧
    LIST_REVERSE 3 s1 0%nat = Done s2 ∧
    is_list s2 0%nat [5; 6; 7]%positive.
Proof.
  intros s.
  apply (LIST_REVERSE_twice s 0%nat [5; 6; 7]%positive 3).
  - unfold is_list, chain. simpl. repeat split; reflexivity.
  - simpl. lia.
Defined.

(** ** Filter *)

Lemma filter_list_cons func i e l :
  filter_list func i (e :: l) =
  if func e i
  then ((filter_list func (i + 1) l).1, e :: (filter_list func (i + 1) l).2)
  else (e :: (filter_list func (i + 1) l).1, (filter_list func (i + 1) l).2).
Proof. simpl. by destruct (filter_list func (i + 1) l), (func e i). Qed.

Lemma filter_list_sublist func (l : elements) :
  ∀ i, (filter_list func i l).1 `sublist_of` l ∧
       (filter_list func i l).2 `sublist_of` l.
Proof.
  induction l as [|e l IH]; intros i; [done|].
  rewrite filter_list_cons. destruct (IH (i + 1)) as [HK HR].
  destruct (func e i); simpl; split;
    first [by apply sublist_skip | by apply sublist_cons].
Qed.

Lemma filter_list_elem_of func (b : bool) (l : elements) :
  ∀ i e,
    e ∈ (if b then (filter_list func i l).2 else (filter_list func i l).1)
    ↔ ∃ j : nat, l !! j = Some e ∧ func e (i + Z.of_nat j) = b.
Proof.
  induction l as [|e0 l IH]; intros i e.
  - destruct b; simpl; split; [set_solver| |set_solver|];
      by intros (j & Hj & _).
  - rewrite filter_list_cons.
    assert (Hshift : (∃ j : nat, (e0 :: l) !! j = Some e ∧
                                 func e (i + Z.of_nat j) = b)
                     ↔ (e = e0 ∧ func e0 i = b) ∨
                       ∃ j : nat, l !! j = Some e ∧
                                  func e (i + 1 + Z.of_nat j) = b).
    { split.
      - intros ([|j] & Hj & Hf); simpl in Hj.
        + left. injection Hj as ->. by rewrite Z.add_0_r in Hf.
        + right. exists j. split; [done|].
          by replace (i + 1 + Z.of_nat j) with (i + Z.of_nat (S j)) by lia.
      - intros [[-> Hf]|(j & Hj & Hf)].
        + exists 0%nat. by rewrite Z.add_0_r.
        + exists (S j). split; [done|].
          by replace (i + Z.of_nat (S j)) with (i + 1 + Z.of_nat j) by lia. }
    rewrite Hshift. specialize (IH (i + 1) e).
    destruct b, (func e0 i) eqn:Hf; simpl in *;
      rewrite ?elem_of_cons, IH; naive_solver.
Qed.

Lemma read_write_slot (s : state) (c : slot) (v : ptr) :
  read_slot (write_slot s c v) c = v.
Proof. destruct c; simpl; unfold _LIST_FST; simpl; apply fn_lookup_insert. Qed.

Lemma filter_loop_spec (clean : bool) (func : addr → Z → bool)
  (L : elements) :
  ∀ (fuel : nat) (s : state) (c : slot) (i : Z),
    chain (links s) (read_slot s c) L → slot_outside c L →
    (length L ≤ fuel)%nat →
    ∃ s',
      filter_loop fuel clean func s c i = Done s' ∧
      chain (links s') (read_slot s' c) (filter_list func i L).1 ∧
      (∀ a, a ∉ L → link_slot a ≠ c → links s' a = links s a) ∧
      (∀ l, head_slot l ≠ c → heads s' l = heads s l) ∧
      cleaned s' = cleaned s ++
        (if clean then (filter_list func i L).2 else []).
Proof.
  induction L as [|e L IH]; intros fuel s c i Hch Hout Hfuel.
  - unfold chain in Hch. simpl in Hch. exists s.
    split; [destruct fuel; simpl; by rewrite Hch|].
    repeat split; try done. destruct clean; by rewrite app_nil_r.
  - pose proof (chain_NoDup _ _ _ Hch) as Hdup.
    apply NoDup_cons in Hdup as [HeL _].
    destruct Hch as [Hrd Hch].
    destruct fuel as [|fuel]; [simpl in Hfuel; lia|].
    rewrite filter_list_cons. simpl filter_loop. rewrite Hrd.
    destruct (func e i) eqn:Hf.
    + (* [e] is removed; the slot stays *)
      set (s1 := run_clean clean (write_slot s c (links s e)) e).
      assert (Hlinks1 : ∀ a, link_slot a ≠ c → links s1 a = links s a).
      { intros a Ha. unfold s1. rewrite run_clean_links.
        destruct c as [l|a']; simpl; [done|].
        apply fn_lookup_insert_ne. congruence. }
      assert (Hheads1 : ∀ l, head_slot l ≠ c → heads s1 l = heads s l).
      { intros l Hl. unfold s1. rewrite run_clean_heads.
        destruct c as [l'|a']; simpl; [|done].
        apply fn_lookup_insert_ne. congruence. }
      assert (Hrd1 : read_slot s1 c = links s e).
      { unfold s1. destruct c as [l|a]; simpl; unfold _LIST_FST;
          rewrite ?run_clean_heads, ?run_clean_links; simpl;
          apply fn_lookup_insert. }
      destruct (IH fuel s1 c (i + 1)) as (s' & Hrun & HK & Hfr & Hh & Hc).
      * rewrite Hrd1. eapply lseg_ext; [|exact Hch].
        intros a Ha. apply Hlinks1. intros Heq. rewrite <- Heq in Hout.
        simpl in Hout. set_solver.
      * destruct c; simpl in *; [done|set_solver].
      * simpl in Hfuel. lia.
      * exists s'. split; [done|]. split; [done|]. split; [|split].
        -- intros a Ha Hac. rewrite Hfr by set_solver. by apply Hlinks1.
        -- intros l Hl. rewrite Hh by done. by apply Hheads1.
        -- rewrite Hc. unfold s1. rewrite run_clean_cleaned, <- app_assoc.
           assert (cleaned (write_slot s c (links s e)) = cleaned s)
             as -> by (by destruct c).
           by destruct clean.
    + (* [e] is kept; the slot moves to its link *)
      destruct (IH fuel s (link_slot e) (i + 1))
        as (s' & Hrun & HK & Hfr & Hh & Hc); [done|done|simpl in Hfuel; lia|].
      exists s'. split; [done|]. split; [|split; [|split]].
      * simpl. split; [|done].
        destruct c as [l|a]; simpl in *; unfold _LIST_FST in *.
        -- by rewrite Hh.
        -- rewrite Hfr; [done|set_solver|]. intros [= ->]. set_solver.
      * intros a Ha Hac. apply Hfr; [set_solver|].
        intros [= ->]. set_solver.
      * intros l Hl. by apply Hh.
      * done.
Qed.

Lemma LIST_FILTER_spec (clean : bool) (func : addr → Z → bool)
  (s : state) (list : handle) (L : elements) (fuel : nat) :
  is_list s list L → (length L ≤ fuel)%nat →
  ∃ s',
    LIST_FILTER fuel clean func s list = Done s' ∧
    is_list s' list (filter_list func 0 L).1 ∧
    (∀ a, a ∉ L → links s' a = links s a) ∧
    (∀ list', list' ≠ list → heads s' list' = heads s list') ∧
    cleaned s' = cleaned s ++ (if clean then (filter_list func 0 L).2 else []).
Proof.
  intros HL Hfuel.
  destruct (filter_loop_spec clean func L fuel s (head_slot list) 0 HL I Hfuel)
    as (s' & Hrun & HK & Hfr & Hh & Hc).
  exists s'. split; [done|]. split; [done|]. split; [|split; [|done]].
  - intros a Ha. by apply Hfr.
  - intros list' Hne. apply Hh. congruence.
Qed.

(** X22: on a well-formed list [filter] removes exactly the elements for
    which [func] holds, given the element and its position in the chain as
    it was, counted from 0; the elements it keeps stay in order, and
    [clean], when given, is invoked once on every removed element, in
    order. *)
Theorem LIST_FILTER_partition (clean : bool) (func : addr → Z → bool)
  (s : state) (list : handle) (L : elements) (fuel : nat) :
  is_list s list L → (length L ≤ fuel)%nat →
  ∃ s' K R,
    LIST_FILTER fuel clean func s list = Done s' ∧
    is_list s' list K ∧
    cleaned s' = cleaned s ++ (if clean then R else []) ∧
    K `sublist_of` L ∧ R `sublist_of` L ∧
    (∀ e, e ∈ K ↔ ∃ j : nat, L !! j = Some e ∧ func e (Z.of_nat j) = false) ∧
    (∀ e, e ∈ R ↔ ∃ j : nat, L !! j = Some e ∧ func e (Z.of_nat j) = true).
Proof.
  intros HL Hfuel.
  destruct (LIST_FILTER_spec clean func s list L fuel HL Hfuel)
    as (s' & Hrun & HK & _ & _ & Hc).
  exists s', (filter_list func 0 L).1, (filter_list func 0 L).2.
  split; [done|]. split; [done|]. split; [done|].
  split; [apply filter_list_sublist|]. split; [apply filter_list_sublist|].
  split; intros e.
  - apply (filter_list_elem_of func false L 0 e).
  - apply (filter_list_elem_of func true L 0 e).
Qed.

Lemma LIST_FILTER_partition_witness :
  let s := push_all empty_state 0%nat [5; 6; 7; 8]%positive in
  ∃ s' K R,
    LIST_FILTER 4 true (λ e i, Z.even i) s 0%nat = Done s' ∧
    is_list s' 0%nat K ∧ cleaned s' = cleaned s ++ R ∧
    K `sublist_of` [5; 6; 7; 8]%positive.
Proof.
  intros s.
  destruct (LIST_FILTER_partition true (λ e i, Z.even i) s 0%nat
              [5; 6; 7; 8]%positive 4)
    as (s' & K & R & Hrun & HK & Hc & Hsub & _).
  - unfold is_list, chain. simpl. repeat split; reflexivity.
  - simpl. lia.
  - exists s', K, R. split; [exact Hrun|]. split; [exact HK|].
    split; [exact Hc | exact Hsub].
Defined.

(** X23: on a well-formed list [filter] with a predicate that never holds
    leaves the chain as it is and invokes [clean] on nothing; with a
    predicate that always holds it empties the list and invokes [clean],
    when given, on every element in order. *)
Theorem LIST_FILTER_constant (clean : bool) (s : state) (list : handle)
  (L : elements) (fuel : nat) :
  is_list s list L → (length L ≤ fuel)%nat →
  (∃ s', LIST_FILTER fuel clean (λ _ _, false) s list = Done s' ∧
         is_list s' list L ∧ cleaned s' = cleaned s) ∧
  (∃ s', LIST_FILTER fuel clean (λ _ _, true) s list = Done s' ∧
         is_list s' list [] ∧
         cleaned s' = cleaned s ++ (if clean then L else [])).
Proof.
  intros HL Hfuel.
  assert (Hconst : ∀ (b : bool) (l : elements) i,
    filter_list (λ _ _, b) i l = if b then ([], l) else (l, [])).
  { intros b l. induction l as [|e l IH]; intros i; [by destruct b|].
    rewrite filter_list_cons, IH. by destruct b. }
  split.
  - destruct (LIST_FILTER_spec clean (λ _ _, false) s list L fuel HL Hfuel)
      as (s' & Hrun & HK & _ & _ & Hc).
    rewrite Hconst in HK, Hc. exists s'. split; [done|]. split; [done|].
    rewrite Hc. destruct clean; by rewrite app_nil_r.
  - destruct (LIST_FILTER_spec clean (λ _ _, true) s list L fuel HL Hfuel)
      as (s' & Hrun & HK & _ & _ & Hc).
    rewrite Hconst in HK, Hc. by exists s'.
Qed.

Lemma LIST_FILTER_constant_witness :
  let s := push_all empty_state 0%nat [5; 6; 7]%positive in
  (∃ s', LIST_FILTER 3 true (λ _ _, false) s 0%nat = Done s' ∧
         is_list s' 0%nat [5; 6; 7]%positive ∧ cleaned s' = cleaned s) ∧
  (∃ s', LIST_FILTER 3 true (λ _ _, true) s 0%nat = Done s' ∧
         is_list s' 0%nat [] ∧
         cleaned s' = cleaned s ++ [5; 6; 7]%positive).
Proof.
  intros s.
  apply (LIST_FILTER_constant true s 0%nat [5; 6; 7]%positive 3).
  - unfold is_list, chain. simpl. repeat split; reflexivity.
  - simpl. lia.
Defined.

(** ** Unique and sort: what they keep *)

Lemma unique_scan_list_cons func (f e : addr) (l : elements) :
  unique_scan_list func f (e :: l) =
  if func f e =? 0 then
    match l with
    | [] => Fault
    | e' :: l'' =>
        '(k, r) ← unique_scan_list func f l''; Done (e' :: k, e :: r)
    end
  else '(k, r) ← unique_scan_list func f l; Done (e :: k, r).
Proof. done. Qed.

Lemma unique_scan_list_keeps func (f : addr) (l : elements) :
  ∀ k r, unique_scan_list func f l = Done (k, r) →
         k ++ r ≡ₚ l ∧ k `sublist_of` l.
Proof.
  assert (H : ∀ l,
    (∀ k r, unique_scan_list func f l = Done (k, r) →
            k ++ r ≡ₚ l ∧ k `sublist_of` l) ∧
    ∀ e k r, unique_scan_list func f (e :: l) = Done (k, r) →
             k ++ r ≡ₚ e :: l ∧ k `sublist_of` e :: l).
  { clear l. induction l as [|e' l [IH1 IH2]].
    - split; [by intros k r [= <- <-]|]. intros e k r. simpl.
      destruct (func f e =? 0); [done|]. by intros [= <- <-].
    - split; [apply IH2|]. intros e k r.
      rewrite (unique_scan_list_cons func f e (e' :: l)).
      destruct (func f e =? 0).
      + destruct (unique_scan_list func f l) as [[k0 r0]| |]; simpl; try done.
        intros [= <- <-]. destruct (IH1 k0 r0 eq_refl) as [Hp Hs].
        split; [|by apply sublist_cons, sublist_skip].
        simpl. rewrite <- Permutation_middle, Hp. apply perm_swap.
      + destruct (unique_scan_list func f (e' :: l)) as [[k0 r0]| |] eqn:Hscan;
          simpl; try done.
        intros [= <- <-]. destruct (IH2 e' k0 r0 Hscan) as [Hp Hs].
        split; [simpl; by rewrite Hp|by apply sublist_skip]. }
  apply H.
Qed.

Lemma unique_list_keeps func :
  ∀ (fuel : nat) (L K R : elements),
    unique_list fuel func L = Done (K, R) →
    K ++ R ≡ₚ L ∧ K `sublist_of` L ∧ head K = head L.
Proof.
  induction fuel as [|fuel IH]; intros L K R.
  - destruct L; simpl; [by intros [= <- <-]|done].
  - destruct L as [|f l]; simpl; [by intros [= <- <-]|].
    destruct (unique_scan_list func f l) as [[k1 r1]| |] eqn:Hscan;
      simpl; try done.
    destruct (unique_list fuel func k1) as [[K2 R2]| |] eqn:Hrec;
      simpl; try done.
    intros [= <- <-].
    destruct (unique_scan_list_keeps func f l k1 r1 Hscan) as [Hp1 Hs1].
    destruct (IH k1 K2 R2 Hrec) as (Hp2 & Hs2 & _).
    split; [|split; [|done]].
    + simpl. f_equiv. rewrite <- Hp1, <- Hp2, <- app_assoc.
      f_equiv. apply Permutation_app_comm.
    + apply sublist_skip. by etrans.
Qed.

(** X27: on a well-formed list [unique] never loses an element: it either
    reads the link of [NULL] or returns, and when it returns every element
    of the old chain is either still in the chain or was handed to [clean]
    once; the elements that stay keep their order and the first element
    always stays. *)
Theorem LIST_UNIQUE_keeps_or_cleans (func : addr → addr → Z) (s : state)
  (list : handle) (L : elements) (fuel : nat) :
  is_list s list L → (length L ≤ fuel)%nat →
  LIST_UNIQUE fuel true func s list = Fault ∨
  ∃ s' K R,
    LIST_UNIQUE fuel true func s list = Done s' ∧
    is_list s' list K ∧ cleaned s' = cleaned s ++ R ∧
    K ++ R ≡ₚ L ∧ K `sublist_of` L ∧ head K = head L.
Proof.
  intros HL Hfuel.
  pose proof (LIST_UNIQUE_spec true func s list L fuel HL Hfuel) as Hspec.
  destruct (unique_list fuel func L) as [[K R]| |] eqn:Hlist; [|by left|done].
  right. destruct Hspec as (s' & Hrun & HK & Hc).
  exists s', K, R. split; [done|]. split; [done|]. split; [done|].
  by apply (unique_list_keeps func fuel).
Qed.

Lemma LIST_UNIQUE_keeps_or_cleans_witness :
  let s := push_all empty_state 0%nat [11; 21; 12; 31]%positive in
  LIST_UNIQUE 4 true cmp_key s 0%nat = Fault ∨
  ∃ s' K R,
    LIST_UNIQUE 4 true cmp_key s 0%nat = Done s' ∧
    is_list s' 0%nat K ∧ cleaned s' = cleaned s ++ R ∧
    K ++ R ≡ₚ [11; 21; 12; 31]%positive.
Proof.
  intros s.
  destruct (LIST_UNIQUE_keeps_or_cleans cmp_key s 0%nat
              [11; 21; 12; 31]%positive 4)
    as [Hfault|(s' & K & R & Hrun & HK & Hc & Hp & _)].
  - unfold is_list, chain. simpl. repeat split; reflexivity.
  - simpl. lia.
  - left. exact Hfault.
  - right. exists s', K, R. split; [exact Hrun|]. split; [exact HK|].
    split; [exact Hc | exact Hp].
Defined.

(** X29: on a well-formed list [sort] invokes no [clean], leaves every
    other list as it is and keeps the number of elements. *)
Theorem LIST_SORT_frame (func : addr → addr → Z) (s : state)
  (list : handle) (L : elements) (fuel : nat) :
  is_list s list L → (length L ≤ fuel)%nat →
  ∃ s' L',
    LIST_SORT fuel func s list = Done s' ∧
    is_list s' list L' ∧ length L' = length L ∧
    calls s' = calls s ∧
    (∀ list', list' ≠ list → heads s' list' = heads s list').
Proof.
  intros HL Hfuel.
  destruct (LIST_SORT_spec func fuel s list L HL Hfuel)
    as (s' & L' & Hrun & HL' & Hperm & Hc & Hh & _).
  exists s', L'. split; [done|]. split; [done|].
  split; [by rewrite Hperm|]. done.
Qed.

Lemma LIST_SORT_frame_witness :
  let s := push_all (push_all empty_state 1%nat [1; 2]%positive)
             0%nat [51; 31; 32; 11]%positive in
  ∃ s' L',
    LIST_SORT 4 cmp_key s 0%nat = Done s' ∧
    is_list s' 0%nat L' ∧ length L' = 4%nat ∧
    heads s' 1%nat = heads s 1%nat.
Proof.
  intros s.
  destruct (LIST_SORT_frame cmp_key s 0%nat [51; 31; 32; 11]%positive 4)
    as (s' & L' & Hrun & HL' & Hlen & _ & Hh).
  - unfold is_list, chain. simpl. repeat split; reflexivity.
  - simpl. lia.
  - exists s', L'. split; [exact Hrun|]. split; [exact HL'|].
    split; [exact Hlen|]. apply Hh. discriminate.
Defined.

Lemma sort_passes_run_length_witness :
  let s := push_all empty_state 0%nat [51; 31; 32; 11; 41]%positive in
  ∃ s' x' gl',
    sort_passes 5 5 cmp_key s 1 (Some 51%positive) = Done (s', x', gl') ∧
    1 < gl' ≤ 2 * Z.of_nat 5.
Proof.
  intros s.
  apply (sort_passes_run_length cmp_key 5 s (Some 51%positive)
           [51; 31; 32; 11; 41]%positive).
  - unfold chain. simpl. repeat split; reflexivity.
  - simpl. lia.
  - simpl. lia.
Defined.
